(** * TransitionX: state transitions with rollback and redo

    A shallow embedding of [src/src/transitionx.js].  JavaScript objects
    live in a store and are named by references, so that the difference
    between an object and a copy of it ([{ ...o }]) is visible: the class
    hands out references to its state object, copies it into the history
    stacks, and replaces it on rollback and redo. *)

From stdpp Require Import gmap strings list fin_maps pretty.

Local Open Scope string_scope.
Local Open Scope list_scope.

#[local] Set Warnings "-clear-no-such-hyp".

(** ** Values, objects and errors *)

(** A reference to an object of the store. *)
Abbreviation loc := positive.

(** The values a property of a state object can hold.  Numbers are kept to
    the integers; a nested object is held by reference, which is what makes
    the copies of the class shallow. *)
Inductive value :=
| VUndefined
| VNull
| VBool (b : bool)
| VNum (n : Z)
| VStr (s : string)
| VRef (l : loc).

#[global] Instance value_eq_dec : EqDecision value.
Proof. solve_decision. Defined.

(** A plain object: its own enumerable properties. *)
Abbreviation obj := (gmap string value).

(** What a [throw] or a rejected promise carries: [new Error(message)], a
    [TypeError] of the engine, or any other value, such as [null], or
    [undefined] for a promise rejected with no reason. *)
Inductive error :=
| Error (message : string)
| TypeError (message : string)
| Thrown (v : value).

#[global] Instance error_eq_dec : EqDecision error.
Proof. solve_decision. Defined.

(** The message of an error object.  A thrown value that is not an error
    object has none of its own: what [error.message] gives for it is
    [read_message] below. *)
Definition message (e : error) : string :=
  match e with
  | Error s | TypeError s => s
  | Thrown _ => EmptyString
  end.

(** ** Transition functions *)

(** How a call [f(state, ...args)] ends. *)
Inductive outcome :=
| Returns
    (* the call returned; what it returned is not a promise *)
| Throws (e : error)
    (* the call threw *)
| Promises (later : obj → obj) (settles : option error).
    (* the call returned a pending promise: by the time this promise
       settles, [later] has been applied to the object the call was given;
       it is then fulfilled ([None]) or rejected ([Some e]) *)

(** A transition function is given the caller's arguments and the state
    object, which it mutates in place: it is described by the properties of
    that object when the call ends, and by how the call ends.  The functions
    described are those that act on the object they are given; one that also
    calls the methods of the instance is not among them. *)
Definition transition_fn : Type := list value → obj → obj * outcome.

(** A property of an object that holds transition functions: a function, or
    any other value. *)
Inductive property :=
| PFunction (f : transition_fn)
| PValue (v : value).

(** [if (v)]: ToBoolean. *)
Definition truthy_value (v : value) : bool :=
  match v with
  | VUndefined | VNull => false
  | VBool b => b
  | VNum n => negb (n =? 0)%Z
  | VStr s => negb (String.eqb s EmptyString)
  | VRef _ => true
  end.

Definition truthy (p : property) : bool :=
  match p with
  | PFunction _ => true
  | PValue v => truthy_value v
  end.

Abbreviation registry := (gmap string property).

(** ** The store *)

(** What [console.log] has been given. *)
Inductive log_data :=
| DState (o : obj)                    (* [{ ...this.state }] *)
| DArgs (args : list value)           (* [{ args }] *)
| DFunctionName (name : string).      (* [{ functionName: ... }] *)

Inductive console_line :=
| LText (s : string)
| LData (d : log_data).

(** State objects and snapshots are in [objects], the objects that hold
    transition functions in [registries].  [Object_prototype] is the
    prototype of every object literal: a property that an object does not
    have itself is looked up there. *)
Record store := Store {
  objects : gmap loc obj;
  registries : gmap loc registry;
  Object_prototype : registry;
  console : list console_line;
}.

Definition set_objects (h : gmap loc obj) (σ : store) : store :=
  Store h (registries σ) (Object_prototype σ) (console σ).

Definition set_registries (h : gmap loc registry) (σ : store) : store :=
  Store (objects σ) h (Object_prototype σ) (console σ).

Definition set_console (out : list console_line) (σ : store) : store :=
  Store (objects σ) (registries σ) (Object_prototype σ) out.

(** The own properties of the object at [l]. *)
Definition contents (l : loc) (σ : store) : obj :=
  default ∅ (objects σ !! l).

Definition registry_at (l : loc) (σ : store) : registry :=
  default ∅ (registries σ !! l).

(** In-place mutation of the object at [l]: its properties become [o]. *)
Definition write (l : loc) (o : obj) (σ : store) : store :=
  set_objects (<[l := o]> (objects σ)) σ.

Definition write_registry (l : loc) (r : registry) (σ : store) : store :=
  set_registries (<[l := r]> (registries σ)) σ.

(** An object literal: a new object, distinct from every object of the
    store. *)
Definition alloc (o : obj) (σ : store) : loc * store :=
  let l := fresh (dom (objects σ)) in (l, write l o σ).

Definition alloc_registry (r : registry) (σ : store) : loc * store :=
  let l := fresh (dom (registries σ)) in (l, write_registry l r σ).

(** [{ ...x }]: a new object with the own properties of [x]; spreading
    [undefined] gives an empty object. *)
Definition spread (x : option loc) (σ : store) : loc * store :=
  alloc (from_option (λ l, contents l σ) ∅ x) σ.

Definition spread_registry (x : option loc) (σ : store) : loc * store :=
  alloc_registry (from_option (λ l, registry_at l σ) ∅ x) σ.

(** [o[name]]: the own property, else the one of [Object.prototype]. *)
Definition get (l : loc) (name : string) (σ : store) : option property :=
  match registry_at l σ !! name with
  | Some p => Some p
  | None => Object_prototype σ !! name
  end.

(** ** Arrays used as stacks, most recent last *)

Definition push {A} (a : list A) (x : A) : list A := a ++ [x].

(** [a.pop()]: the last element, [undefined] when there is none, and the
    array without it. *)
Definition pop {A} (a : list A) : option A * list A := (last a, removelast a).

(** ** The class *)

Record TransitionX := Build {
  state : loc;
  transitions : loc;
  debug : bool;
  stateHistory : list loc;
  redoStack : list loc;
}.

Definition set_state (l : loc) (m : TransitionX) : TransitionX :=
  Build l (transitions m) (debug m) (stateHistory m) (redoStack m).

Definition set_stateHistory (a : list loc) (m : TransitionX) : TransitionX :=
  Build (state m) (transitions m) (debug m) a (redoStack m).

Definition set_redoStack (a : list loc) (m : TransitionX) : TransitionX :=
  Build (state m) (transitions m) (debug m) (stateHistory m) a.

(** The store together with the instance ([this], [context]). *)
Definition config : Type := store * TransitionX.

(** [constructor(initialState = {}, transitions = {}, debug = false)]: an
    argument left out is [None]; the default object literals are spread
    like any other object. *)
Definition constructor (initialState transitions : option loc)
    (debug : option bool) (σ : store) : config :=
  let '(i, σ) := match initialState with
                 | Some l => (l, σ)
                 | None => alloc ∅ σ
                 end in
  let '(t, σ) := match transitions with
                 | Some l => (l, σ)
                 | None => alloc_registry ∅ σ
                 end in
  let '(s, σ) := spread (Some i) σ in
  let '(r, σ) := spread_registry (Some t) σ in
  (σ, Build s r (default false debug) [] []).

(** [log(message, data = null)] *)
Definition log (m : TransitionX) (message : string) (data : option log_data)
    (σ : store) : store :=
  if debug m then
    let out := console σ ++ [LText ("[TransitionX] " +:+ message)] in
    match data with
    | Some d => set_console (out ++ [LData d]) σ
    | None => set_console out σ
    end
  else σ.

(** Save the current state to history: a copy of the state is pushed, and
    the redo stack is a new, empty array. *)
Definition saveState (c : config) : config :=
  let '(σ, m) := c in
  let '(snapshot, σ) := spread (Some (state m)) σ in
  let m := set_stateHistory (push (stateHistory m) snapshot) m in
  let m := set_redoStack [] m in
  (log m "State saved to history" (Some (DState (contents (state m) σ))) σ, m).

(** Rollback to the most recent saved state.  The result is the store and
    the instance as the call leaves them, and the error it threw, if any. *)
Definition rollbackState (c : config) : config * option error :=
  let '(σ, m) := c in
  if decide (0 < length (stateHistory m)) then
    let '(previousState, rest) := pop (stateHistory m) in
    let m := set_stateHistory rest m in
    let '(current, σ) := spread (Some (state m)) σ in
    let m := set_redoStack (push (redoStack m) current) m in
    let '(s, σ) := spread previousState σ in
    let m := set_state s m in
    ((log m "State rolled back to previous state"
        (Some (DState (contents (state m) σ))) σ, m), None)
  else
    ((log m "No saved state to rollback to." None σ, m),
     Some (Error "No saved state to rollback to.")).

(** Redo the most recently rolled-back state. *)
Definition redoState (c : config) : config * option error :=
  let '(σ, m) := c in
  if decide (0 < length (redoStack m)) then
    let '(nextState, rest) := pop (redoStack m) in
    let m := set_redoStack rest m in
    let '(current, σ) := spread (Some (state m)) σ in
    let m := set_stateHistory (push (stateHistory m) current) m in
    let '(s, σ) := spread nextState σ in
    let m := set_state s m in
    ((log m "State redone to next state"
        (Some (DState (contents (state m) σ))) σ, m), None)
  else
    ((log m "No state to redo." None σ, m), Some (Error "No state to redo.")).

(** [`${v}`]: the text of a value in a template literal, or the
    [TypeError] of the conversion.  Integers print in decimal; an object
    prints through [Object.prototype.toString], unless it has a property
    [toString] of its own, which is not a function and leaves the conversion
    without a primitive value. *)
Definition to_text (v : value) (σ : store) : error + string :=
  match v with
  | VUndefined => inr "undefined"
  | VNull => inr "null"
  | VBool true => inr "true"
  | VBool false => inr "false"
  | VNum n => inr (pretty n)
  | VStr s => inr s
  | VRef l =>
    if decide ("toString" ∈ dom (contents l σ))
    then inl (TypeError "Cannot convert object to primitive value")
    else inr "[object Object]"
  end.

(** [`${error.message}`]: reading a property of [null] or [undefined]
    throws; a primitive value has no [message], and neither has
    [Object.prototype]. *)
Definition read_message (e : error) (σ : store) : error + string :=
  match e with
  | Error s | TypeError s => inr s
  | Thrown VUndefined =>
    inl (TypeError "Cannot read properties of undefined (reading 'message')")
  | Thrown VNull =>
    inl (TypeError "Cannot read properties of null (reading 'message')")
  | Thrown (VRef l) => to_text (default VUndefined (contents l σ !! "message")) σ
  | Thrown _ => inr "undefined"
  end.

(** What leaves a block [catch (error) { log(prefix + error.message); throw
    error; }]: the error it caught, or the error of reading its message. *)
Definition caught (e : error) (σ : store) : error :=
  match read_message e σ with
  | inl thrown => thrown
  | inr _ => e
  end.

(** That block: the argument of [log] is evaluated before [log] is called,
    so nothing is logged when it throws. *)
Definition log_and_rethrow (m : TransitionX) (prefix : string) (e : error)
    (σ : store) : store * error :=
  match read_message e σ with
  | inl thrown => (σ, thrown)
  | inr text => (log m (prefix +:+ text) None σ, e)
  end.

(** A double quote, for the messages that quote a transition name. *)
Definition dquote : string := String (Ascii.ascii_of_nat 34) EmptyString.

(** What the [await] of the transition handler is waiting for. *)
Inductive awaited :=
| NotAPromise
    (* a value that is not a promise: the handler goes on at the next turn *)
| Deferred (target : loc) (later : obj → obj) (settles : option error).
    (* the promise of a transition function that was given [target] *)

(** The promise an [async function] returns, as it is when the call
    returns: rejected if the body threw before its first [await], else
    pending with the body suspended at that [await]. *)
Inductive promise :=
| Rejected (e : error)
| Suspended (name : string) (a : awaited).

(** The function that [createTransition()] returns, called with [name] and
    [...args]: the body up to its [await]. *)
Definition createTransition (name : string) (args : list value) (c : config)
    : config * promise :=
  let '(σ, m) := c in
  let σ := log m ("Attempting transition: " +:+ dquote +:+ name +:+ dquote)
             (Some (DArgs args)) σ in
  match get (transitions m) name σ with
  | Some p =>
    if truthy p then
      let σ := log m "State before transition"
                 (Some (DState (contents (state m) σ))) σ in
      let thrown e σ :=
        let '(σ, e) :=
          log_and_rethrow m ("Error during transition " +:+ dquote +:+ name
                             +:+ dquote +:+ ": ") e σ in
        ((σ, m), Rejected e) in
      match p with
      | PFunction f =>
        let '(o, out) := f args (contents (state m) σ) in
        let σ := write (state m) o σ in
        match out with
        | Returns => ((σ, m), Suspended name NotAPromise)
        | Throws e => thrown e σ
        | Promises later settles =>
          ((σ, m), Suspended name (Deferred (state m) later settles))
        end
      | PValue _ =>
        thrown (TypeError "context.transitions[name] is not a function") σ
      end
    else
      let errorMessage :=
        "Transition " +:+ dquote +:+ name +:+ dquote +:+ " is not defined." in
      ((log m errorMessage None σ, m), Rejected (Error errorMessage))
  | None =>
    let errorMessage :=
      "Transition " +:+ dquote +:+ name +:+ dquote +:+ " is not defined." in
    ((log m errorMessage None σ, m), Rejected (Error errorMessage))
  end.

(** The rest of the handler, run when what it awaits has settled: [None]
    when the handler's promise is fulfilled, [Some e] when it is rejected
    with [e]. *)
Definition settle (p : promise) (c : config) : config * option error :=
  let '(σ, m) := c in
  let after σ :=
    ((log m "State after transition"
        (Some (DState (contents (state m) σ))) σ, m), None) in
  match p with
  | Rejected e => (c, Some e)
  | Suspended name NotAPromise => after σ
  | Suspended name (Deferred target later settles) =>
    let σ := write target (later (contents target σ)) σ in
    match settles with
    | None => after σ
    | Some e =>
      let '(σ, e) :=
        log_and_rethrow m ("Error during transition " +:+ dquote +:+ name
                           +:+ dquote +:+ ": ") e σ in
      ((σ, m), Some e)
    end
  end.

(** [await transition(name, ...args)] *)
Definition await_transition (name : string) (args : list value) (c : config)
    : config * option error :=
  let '(c, p) := createTransition name args c in settle p c.

(** ** Wrapped functions *)

(** What a wrapped function does with the object it is given: the
    statements of its body, each through a member of that object. *)
Inductive stmt :=
| Assign (key : string) (v : value)
    (* [state[key] = v] *)
| AwaitTransition (name : string) (args : list value)
    (* [await transition(name, ...args)] *)
| CallSaveState
| CallRollbackState
| CallRedoState
| Throw (e : error).
    (* [throw e], or [await] of a promise rejected with [e] *)

Record procedure := Procedure {
  fn_name : string;
  fn_body : list value → list stmt;
}.

(** One statement, where [bundle_state] is the [state] member of the object
    given to the function; the other members are closures over [context]
    and act on the instance. *)
Definition run_stmt (bundle_state : loc) (s : stmt) (c : config)
    : config * option error :=
  match s with
  | Assign key v =>
    let '(σ, m) := c in
    ((write bundle_state (<[key := v]> (contents bundle_state σ)) σ, m), None)
  | AwaitTransition name args => await_transition name args c
  | CallSaveState => (saveState c, None)
  | CallRollbackState => rollbackState c
  | CallRedoState => redoState c
  | Throw e => (c, Some e)
  end.

(** The body stops at the first statement that throws. *)
Fixpoint run_body (bundle_state : loc) (body : list stmt) (c : config)
    : config * option error :=
  match body with
  | [] => (c, None)
  | s :: body =>
    match run_stmt bundle_state s c with
    | (c, None) => run_body bundle_state body c
    | (c, Some e) => (c, Some e)
    end
  end.

(** The function that [wrap(fn)] returns, called with [...args] and
    awaited. *)
Definition wrap (fn : procedure) (args : list value) (c : config)
    : config * option error :=
  let '(σ, m) := c in
  let functionName :=
    if String.eqb (fn_name fn) EmptyString then "anonymous" else fn_name fn in
  let σ := log m "Executing wrapped function"
             (Some (DFunctionName functionName)) σ in
  let bundle_state := state m in
  match run_body bundle_state (fn_body fn args) (σ, m) with
  | (c, None) => (c, None)
  | ((σ, m), Some e) =>
    let '(σ, e) := log_and_rethrow m "Error in wrapped function: " e σ in
    ((σ, m), Some e)
  end.

(** ** The instance of the tests *)

Module Tests.

(** [{ hunger: 'hungry', energy: 'low' }] *)
Definition initialState : obj :=
  {[ "hunger" := VStr "hungry"; "energy" := VStr "low" ]}.

(** [eat: (state) => { state.hunger = 'satisfied'; }] *)
Definition eat : transition_fn :=
  λ _ o, (<["hunger" := VStr "satisfied"]> o, Returns).

(** [rest]: a promise that sets [state.energy = 'high'] when its timer
    fires, and is then fulfilled. *)
Definition rest : transition_fn :=
  λ _ o, (o, Promises (λ o, <["energy" := VStr "high"]> o) None).

Definition transitions : registry :=
  {[ "eat" := PFunction eat; "rest" := PFunction rest ]}.

(** Members of [Object.prototype] that return without touching their
    arguments: [Object(state)], [toString()], [valueOf()] and
    [isPrototypeOf(state)]. *)
Definition Object_prototype : registry :=
  let returns := PFunction (λ _ o, (o, Returns)) in
  {[ "constructor" := returns; "toString" := returns;
     "valueOf" := returns; "isPrototypeOf" := returns ]}.

(** The caller's two object literals. *)
Definition σ0 : store :=
  Store {[ 1%positive := initialState ]} {[ 1%positive := transitions ]}
        Object_prototype [].

(** [tx = new TransitionX(initialState, transitions, false)] *)
Definition tx : config :=
  constructor (Some 1%positive) (Some 1%positive) (Some false) σ0.

End Tests.

(** ** What an observer sees of an instance *)

(** The top-level properties of the snapshots of a stack, oldest first. *)
Definition snapshots (a : list loc) (σ : store) : list obj :=
  (λ l, contents l σ) <$> a.

(** The current state and the two stacks, by content. *)
Record view := View {
  current : obj;
  undo : list obj;
  redo : list obj;
}.

Definition view_of (c : config) : view :=
  View (contents (state c.2) c.1)
       (snapshots (stateHistory c.2) c.1)
       (snapshots (redoStack c.2) c.1).

(** ** No snapshot is shared *)

(** [E] is a set of references that are held outside the stacks: the
    current state object is one of them, they are all objects of the store,
    and no snapshot of either stack is one of them. *)
Definition independent (E : gset loc) (c : config) : Prop :=
  state c.2 ∈ E ∧ E ⊆ dom (objects c.1) ∧
  Forall (λ l, l ∈ dom (objects c.1) ∧ l ∉ E)
         (stateHistory c.2 ++ redoStack c.2).

#[global] Instance independent_dec E c : Decision (independent E c).
Proof. unfold independent. apply _. Defined.

(** The references of an instance are objects of the store, and the
    current state object is not in a stack. *)
Definition well_formed (c : config) : Prop := independent {[ state c.2 ]} c.

#[global] Instance well_formed_dec c : Decision (well_formed c).
Proof. unfold well_formed. apply _. Defined.

(** ** Sequences of calls *)

(** What a caller does with an instance [tx]. *)
Inductive operation :=
| Save                                          (* [tx.saveState()] *)
| Rollback                                      (* [tx.rollbackState()] *)
| Redo                                          (* [tx.redoState()] *)
| Mutate (f : obj → obj)
    (* the properties of [tx.state] are changed in place *)
| Transition (name : string) (args : list value).
    (* [await tx.createTransition()(name, ...args)] *)

Definition mutate (f : obj → obj) (c : config) : config :=
  let '(σ, m) := c in (write (state m) (f (contents (state m) σ)) σ, m).

Definition perform (op : operation) (c : config) : config * option error :=
  match op with
  | Save => (saveState c, None)
  | Rollback => rollbackState c
  | Redo => redoState c
  | Mutate f => (mutate f c, None)
  | Transition name args => await_transition name args c
  end.

(** The calls one after the other; the caller catches what they throw. *)
Fixpoint run (ops : list operation) (c : config) : config :=
  match ops with
  | [] => c
  | op :: ops => run ops (perform op c).1
  end.

(** [rollbackState] and [redoState] move a snapshot between the stacks. *)
Definition moves (op : operation) : bool :=
  match op with
  | Rollback | Redo => true
  | _ => false
  end.

(** The state at each [Save] of the sequence, in the order of the calls. *)
Fixpoint saved (ops : list operation) (c : config) : list obj :=
  match ops with
  | [] => []
  | op :: ops =>
    (if op is Save then [contents (state c.2) c.1] else [])
    ++ saved ops (perform op c).1
  end.

(** [n] calls of [rollbackState]: the state after each of them, or [None]
    when one of them throws. *)
Fixpoint rollbacks (n : nat) (c : config) : option (list obj) :=
  match n with
  | 0 => Some []
  | S n =>
    match rollbackState c with
    | (c, None) => cons (contents (state c.2) c.1) <$> rollbacks n c
    | (_, Some _) => None
    end
  end.

(** [n] times [rollbackState(); redoState()], or [None] when a call
    throws. *)
Fixpoint round_trips (n : nat) (c : config) : option config :=
  match n with
  | 0 => Some c
  | S n =>
    match rollbackState c with
    | (c, None) =>
      match redoState c with
      | (c, None) => round_trips n c
      | (_, Some _) => None
      end
    | (_, Some _) => None
    end
  end.

(** The calls after which [redoState] still has nothing to redo. *)
Definition is_rollback (op : operation) : bool :=
  if op is Rollback then true else false.

(** ** Mutation through an outside reference *)

(** [σ'] is [σ] but for the properties of objects of [E]. *)
Definition frame (E : gset loc) (σ σ' : store) : Prop :=
  dom (objects σ') = dom (objects σ) ∧
  ∀ l, l ∉ E → objects σ' !! l = objects σ !! l.

(** The reference a pending promise will write through. *)
Definition target_of (p : promise) : option loc :=
  match p with
  | Suspended _ (Deferred target _ _) => Some target
  | _ => None
  end.

(** ** Every instance a program can reach *)

(** [reachable E c]: the instance of [c] has been constructed and used, and
    [E] holds the references that the program outside the class can have:
    the objects that were there when the instance was constructed, and
    every object that has been its state.  The program calls the methods,
    calls the handler and lets its promise settle, and changes in place the
    properties of any object it has a reference to; a pending promise of a
    transition function changes the object the function was given. *)
Inductive reachable : gset loc → config → Prop :=
| reachable_new σ initialState transitions debug :
    (∀ l, initialState = Some l → l ∈ dom (objects σ)) →
    let c := constructor initialState transitions debug σ in
    reachable (dom (objects c.1)) c
| reachable_saveState E c :
    reachable E c → reachable E (saveState c)
| reachable_rollbackState E c :
    reachable E c →
    let c' := (rollbackState c).1 in reachable ({[ state c'.2 ]} ∪ E) c'
| reachable_redoState E c :
    reachable E c →
    let c' := (redoState c).1 in reachable ({[ state c'.2 ]} ∪ E) c'
| reachable_createTransition E c name args :
    reachable E c → reachable E (createTransition name args c).1
| reachable_settle E c p :
    reachable E c → (∀ l, target_of p = Some l → l ∈ E) →
    reachable E (settle p c).1
| reachable_write E σ m l o :
    reachable E (σ, m) → l ∈ E → reachable E (write l o σ, m)
| reachable_log E σ m msg d :
    reachable E (σ, m) → reachable E (log m msg d σ, m).

(** ** Instances used below *)

Module Readme.

(** The wrapped function of the README, up to its rollback:
    [saveState(); await transition("eat"); rollbackState();] *)
Definition eatFunction : procedure :=
  Procedure EmptyString
    (λ _, [CallSaveState; AwaitTransition "eat" []; CallRollbackState]).

(** A function that writes to its [state] after a rollback. *)
Definition writeAfterRollback : procedure :=
  Procedure EmptyString
    (λ _, [CallSaveState; CallRollbackState;
           Assign "hunger" (VStr "full")]).

End Readme.

Module Scenario.

(** [saveState(); eat; saveState(); rest] *)
Definition two_saves : list operation :=
  [Save; Transition "eat" []; Save; Transition "rest" []].

(** [saveState(); eat]: the state differs from the snapshot. *)
Definition ate : config := run [Save; Transition "eat" []] Tests.tx.

(** [saveState(); eat; rollbackState()]: a redo would now succeed. *)
Definition rolled_back : config :=
  run [Save; Transition "eat" []; Rollback] Tests.tx.

(** Two saves and two rollbacks: the redo stack holds two snapshots. *)
Definition two_redos : config :=
  run [Save; Save; Rollback; Rollback] Tests.tx.

(** What follows a save: a transition, and a redo that fails. *)
Definition after_save : list operation := [Transition "rest" []; Redo].

End Scenario.

(** ** Views as a machine, and logging *)

(** The instance with logging off and nothing on the console. *)
Definition silence (c : config) : config :=
  (set_console [] c.1,
   Build (state c.2) (transitions c.2) false (stateHistory c.2) (redoStack c.2)).

(** The three history methods on views: a state and two stacks of states. *)
Definition save_view (v : view) : view :=
  View (current v) (push (undo v) (current v)) [].

Definition rollback_view (v : view) : option view :=
  match pop (undo v) with
  | (Some previous, rest) =>
    Some (View previous rest (push (redo v) (current v)))
  | (None, _) => None
  end.

Definition redo_view (v : view) : option view :=
  match pop (redo v) with
  | (Some next, rest) => Some (View next (push (undo v) (current v)) rest)
  | (None, _) => None
  end.

(** The calls one after the other, up to the first that throws. *)
Fixpoint attempt (ops : list operation) (c : config) : option config :=
  match ops with
  | [] => Some c
  | op :: ops =>
    match perform op c with
    | (c, None) => attempt ops c
    | (_, Some _) => None
    end
  end.

(** ** Instances with a nested object and entries that are not functions *)

Module Checks.

(** A state with a nested object, [{ hunger: 'hungry', bag: { apples: 1 } }],
    and a registry that also holds a function that throws an error after it
    has written, one that throws [null] after it has written, one whose
    promise is rejected with no reason, and two entries that are not
    functions. *)
Definition bag : obj := {[ "apples" := VNum 1 ]}.

Definition initialState : obj :=
  {[ "hunger" := VStr "hungry"; "bag" := VRef 2%positive ]}.

Definition spoil : transition_fn :=
  λ _ o, (<["hunger" := VStr "sick"]> o, Throws (Error "spoiled")).

(** [(state) => { state.hunger = 'sick'; throw null; }] *)
Definition choke : transition_fn :=
  λ _ o, (<["hunger" := VStr "sick"]> o, Throws (Thrown VNull)).

(** [(state) => new Promise((resolve, reject) => reject())] *)
Definition vanish : transition_fn :=
  λ _ o, (o, Promises (λ o, o) (Some (Thrown VUndefined))).

Definition transitions : registry :=
  {[ "eat" := PFunction Tests.eat; "rest" := PFunction Tests.rest;
     "spoil" := PFunction spoil; "choke" := PFunction choke;
     "vanish" := PFunction vanish;
     "off" := PValue (VNum 0); "count" := PValue (VNum 3) ]}.

(** [async () => { throw null; }] as a wrapped function. *)
Definition throwNull : procedure :=
  Procedure EmptyString (λ _, [CallSaveState; Throw (Thrown VNull)]).

Definition σ0 : store :=
  Store {[ 1%positive := initialState; 2%positive := bag ]}
        {[ 1%positive := transitions ]} Tests.Object_prototype [].

(** [new TransitionX(initialState, transitions, true)] *)
Definition tx : config :=
  constructor (Some 1%positive) (Some 1%positive) (Some true) σ0.

(** The instance of the tests with logging on. *)
Definition tests_debug : config :=
  constructor (Some 1%positive) (Some 1%positive) (Some true) Tests.σ0.

(** Two saves with a transition between them. *)
Definition saved_twice : config :=
  run [Save; Transition "eat" []; Save] tx.

End Checks.

(** * Proofs *)

(** ** The store *)

Section store.
Implicit Types (σ : store) (l : loc) (o : obj) (m : TransitionX).

Lemma objects_log m msg d σ : objects (log m msg d σ) = objects σ.
Proof. unfold log. by destruct (debug m), d. Qed.

Lemma registries_log m msg d σ : registries (log m msg d σ) = registries σ.
Proof. unfold log. by destruct (debug m), d. Qed.

Lemma Object_prototype_log m msg d σ :
  Object_prototype (log m msg d σ) = Object_prototype σ.
Proof. unfold log. by destruct (debug m), d. Qed.

Lemma contents_log m msg d σ l : contents l (log m msg d σ) = contents l σ.
Proof. unfold contents. by rewrite objects_log. Qed.

Lemma snapshots_log m msg d σ a : snapshots a (log m msg d σ) = snapshots a σ.
Proof.
  unfold snapshots. apply list_fmap_ext. intros i l' _. apply contents_log.
Qed.

(** Reading a message looks at objects only. *)
Lemma read_message_agree e σ σ' :
  objects σ' = objects σ → read_message e σ' = read_message e σ.
Proof.
  intros Hobj. unfold read_message, to_text, contents. by rewrite Hobj.
Qed.

Lemma read_message_log e m msg d σ :
  read_message e (log m msg d σ) = read_message e σ.
Proof. apply read_message_agree, objects_log. Qed.

Lemma caught_agree e σ σ' : objects σ' = objects σ → caught e σ' = caught e σ.
Proof. intros Hobj. unfold caught. by rewrite (read_message_agree e σ σ'). Qed.

(** A catch block logs one line or none. *)
Lemma log_and_rethrow_cases m prefix e σ :
  log_and_rethrow m prefix e σ = (σ, caught e σ) ∨
  ∃ msg, log_and_rethrow m prefix e σ = (log m msg None σ, caught e σ).
Proof.
  unfold log_and_rethrow, caught.
  destruct (read_message e σ) as [thrown|text]; [by left|right; by eexists].
Qed.

Lemma get_log m msg d σ l name : get l name (log m msg d σ) = get l name σ.
Proof.
  unfold get, registry_at. by rewrite registries_log, Object_prototype_log.
Qed.

Lemma contents_write_eq l o σ : contents l (write l o σ) = o.
Proof. unfold contents, write. simpl. by rewrite lookup_insert_eq. Qed.

Lemma contents_write_ne l l' o σ :
  l ≠ l' → contents l' (write l o σ) = contents l' σ.
Proof. intros. unfold contents, write. simpl. by rewrite lookup_insert_ne. Qed.

Lemma registries_write l o σ : registries (write l o σ) = registries σ.
Proof. done. Qed.

Lemma dom_write l o σ :
  dom (objects (write l o σ)) = {[ l ]} ∪ dom (objects σ).
Proof. unfold write. simpl. apply dom_insert_L. Qed.

Lemma snapshots_app a b σ : snapshots (a ++ b) σ = snapshots a σ ++ snapshots b σ.
Proof. apply fmap_app. Qed.

End store.

(** In a goal, the two ways a catch block ends. *)
Ltac catch_cases :=
  match goal with
  | |- context [log_and_rethrow ?m ?prefix ?e ?σ] =>
    destruct (log_and_rethrow_cases m prefix e σ) as [-> | [? ->]]
  end.

(** ** Stacks *)

Lemma pop_push {A} (a : list A) (x : A) : pop (push a x) = (Some x, a).
Proof. unfold pop, push. by rewrite last_snoc, removelast_last. Qed.

Lemma length_push {A} (a : list A) (x : A) : length (push a x) = S (length a).
Proof. unfold push. rewrite length_app. simpl. lia. Qed.

(** A stack that is not empty ends with its most recent element. *)
Lemma stack_top {A} (a : list A) : 0 < length a → ∃ b x, a = push b x.
Proof.
  destruct a as [|y a] using rev_ind; simpl; [lia|]. intros _. by exists a, y.
Qed.

(** ** The three operations on the history *)

Section operations.
Implicit Types (σ : store) (l : loc) (o : obj) (m : TransitionX).

(** [saveState] adds one object to the store, a copy of the state, and
    pushes it; no object of the store is written. *)
Lemma saveState_spec σ m :
  ∃ σ' snapshot,
    saveState (σ, m) =
      (σ', Build (state m) (transitions m) (debug m)
                 (push (stateHistory m) snapshot) [])
    ∧ (snapshot ∉ dom (objects σ))
    ∧ objects σ' = <[snapshot := contents (state m) σ]> (objects σ)
    ∧ registries σ' = registries σ.
Proof.
  eexists _, (fresh (dom (objects σ))).
  unfold saveState, spread. simpl.
  split; [reflexivity|]. split; [apply is_fresh|].
  by rewrite objects_log, registries_log.
Qed.

(** Two allocations in a row: both objects are new, and they differ. *)
Lemma fresh_twice σ o :
  let l1 := fresh (dom (objects σ)) in
  let l2 := fresh (dom (objects (write l1 o σ))) in
  (l1 ∉ dom (objects σ)) ∧ (l2 ∉ dom (objects σ)) ∧ l2 ≠ l1.
Proof.
  intros l1 l2.
  assert (H1 : l1 ∉ dom (objects σ)) by apply is_fresh.
  assert (H2 : l2 ∉ dom (objects (write l1 o σ))) by apply is_fresh.
  rewrite dom_write in H2. set_solver.
Qed.

Lemma rollbackState_spec σ m h previousState :
  stateHistory m = push h previousState →
  previousState ∈ dom (objects σ) →
  ∃ σ' s current,
    rollbackState (σ, m) =
      ((σ', Build s (transitions m) (debug m) h (push (redoStack m) current)),
       None)
    ∧ (current ∉ dom (objects σ)) ∧ (s ∉ dom (objects σ)) ∧ s ≠ current
    ∧ objects σ' =
        <[s := contents previousState σ]>
          (<[current := contents (state m) σ]> (objects σ))
    ∧ registries σ' = registries σ.
Proof.
  intros Hh Hprev.
  destruct (fresh_twice σ (contents (state m) σ)) as (Hc & Hs & Hne).
  eexists _, _, _.
  unfold rollbackState. rewrite Hh, pop_push, length_push.
  destruct (decide (0 < S (length h))); [|lia].
  unfold spread. simpl.
  split; [reflexivity|]. do 3 (split; [done|]).
  rewrite objects_log, registries_log. simpl. split; [|done].
  rewrite contents_write_ne; [done|]. by intros <-.
Qed.

Lemma redoState_spec σ m r nextState :
  redoStack m = push r nextState →
  nextState ∈ dom (objects σ) →
  ∃ σ' s current,
    redoState (σ, m) =
      ((σ', Build s (transitions m) (debug m)
                  (push (stateHistory m) current) r), None)
    ∧ (current ∉ dom (objects σ)) ∧ (s ∉ dom (objects σ)) ∧ s ≠ current
    ∧ objects σ' =
        <[s := contents nextState σ]>
          (<[current := contents (state m) σ]> (objects σ))
    ∧ registries σ' = registries σ.
Proof.
  intros Hr Hnext.
  destruct (fresh_twice σ (contents (state m) σ)) as (Hc & Hs & Hne).
  eexists _, _, _.
  unfold redoState. rewrite Hr, pop_push, length_push.
  destruct (decide (0 < S (length r))); [|lia].
  unfold spread. simpl.
  split; [reflexivity|]. do 3 (split; [done|]).
  rewrite objects_log, registries_log. simpl. split; [|done].
  rewrite contents_write_ne; [done|]. by intros <-.
Qed.

(** With nothing to go back to, [rollbackState] throws and only logs. *)
Lemma rollbackState_empty σ m :
  stateHistory m = [] →
  rollbackState (σ, m) =
    ((log m "No saved state to rollback to." None σ, m),
     Some (Error "No saved state to rollback to.")).
Proof. intros Hh. unfold rollbackState. by rewrite Hh. Qed.

Lemma redoState_empty σ m :
  redoStack m = [] →
  redoState (σ, m) =
    ((log m "No state to redo." None σ, m), Some (Error "No state to redo.")).
Proof. intros Hr. unfold redoState. by rewrite Hr. Qed.
End operations.

(** ** Views and independence through the operations *)

(** From here on the operations are used through their lemmas. *)
Arguments log : simpl never.
Arguments log_and_rethrow : simpl never.
Arguments saveState : simpl never.
Arguments rollbackState : simpl never.
Arguments redoState : simpl never.
Arguments createTransition : simpl never.
Arguments settle : simpl never.
Arguments await_transition : simpl never.

Section views.
Implicit Types (σ : store) (l : loc) (o : obj) (m : TransitionX)
  (E : gset loc).

Lemma contents_agree σ σ' l :
  objects σ' !! l = objects σ !! l → contents l σ' = contents l σ.
Proof. unfold contents. by intros ->. Qed.

Lemma snapshots_agree σ σ' a :
  (∀ l, l ∈ a → objects σ' !! l = objects σ !! l) →
  snapshots a σ' = snapshots a σ.
Proof.
  intros Ha. unfold snapshots. apply list_fmap_ext. intros i l Hl.
  apply contents_agree, Ha. eapply list_elem_of_lookup_2. exact Hl.
Qed.

Lemma independent_stacks E σ m l :
  independent E (σ, m) → l ∈ stateHistory m ++ redoStack m →
  l ∈ dom (objects σ) ∧ l ∉ E.
Proof.
  intros (_ & _ & Hst) Hl. rewrite Forall_forall in Hst. by apply Hst.
Qed.

Lemma independent_intro E σ m :
  state m ∈ E → E ⊆ dom (objects σ) →
  (∀ l, l ∈ stateHistory m ++ redoStack m → l ∈ dom (objects σ) ∧ l ∉ E) →
  independent E (σ, m).
Proof. intros ? ? Hst. do 2 (split; [done|]). by apply Forall_forall. Qed.

(** A smaller set of outside references will do. *)
Lemma independent_mono E E' σ m :
  independent E (σ, m) → E' ⊆ E → state m ∈ E' → independent E' (σ, m).
Proof.
  intros Hind Hsub Hs'. pose proof Hind as (Hs & HE & _).
  apply independent_intro; [done|set_solver|]. intros l Hl.
  destruct (independent_stacks _ _ _ _ Hind Hl). set_solver.
Qed.

Lemma independent_well_formed E c : independent E c → well_formed c.
Proof.
  destruct c as [σ m]. intros Hind. pose proof Hind as (Hs & _).
  eapply independent_mono; [exact Hind| |]; simpl in *; set_solver.
Qed.

Lemma saveState_view E σ m :
  independent E (σ, m) →
  let c' := saveState (σ, m) in
  state c'.2 = state m ∧
  view_of c' =
    View (contents (state m) σ)
         (snapshots (stateHistory m) σ ++ [contents (state m) σ]) [] ∧
  independent E c'.
Proof.
  intros Hind c'. subst c'.
  destruct (saveState_spec σ m) as (σ' & snap & -> & Hsnap & Hobj & _).
  pose proof Hind as (Hs & HE & _). simpl in *.
  assert (Hold : ∀ l, l ∈ dom (objects σ) → objects σ' !! l = objects σ !! l).
  { intros l Hl. rewrite Hobj, lookup_insert_ne; [done|]. set_solver. }
  assert (Hst : ∀ l, l ∈ stateHistory m → l ∈ dom (objects σ) ∧ l ∉ E).
  { intros l Hl. apply (independent_stacks E σ m l Hind), elem_of_app.
    by left. }
  split; [done|]. split.
  - unfold view_of, push. simpl. rewrite snapshots_app. f_equal.
    + apply contents_agree, Hold. set_solver.
    + f_equal.
      * apply snapshots_agree. intros l Hl. apply Hold, Hst, Hl.
      * simpl. f_equal. unfold contents. by rewrite Hobj, lookup_insert_eq.
  - apply independent_intro; simpl.
    + done.
    + rewrite Hobj, dom_insert_L. set_solver.
    + intros l. rewrite app_nil_r, Hobj, dom_insert_L. unfold push.
      rewrite elem_of_app, list_elem_of_singleton. intros [Hl | ->].
      * apply Hst in Hl. set_solver.
      * set_solver.
Qed.

(** Moving a snapshot from one stack to the other: what both
    [rollbackState] and [redoState] do to the store and the references. *)
Lemma move_view E σ σ' m s cur (from to : list loc) top :
  independent E (σ, m) →
  (∀ l, l ∈ from ++ [top] ++ to → l ∈ stateHistory m ++ redoStack m) →
  (cur ∉ dom (objects σ)) → (s ∉ dom (objects σ)) → s ≠ cur →
  objects σ' =
    <[s := contents top σ]> (<[cur := contents (state m) σ]> (objects σ)) →
  contents s σ' = contents top σ ∧
  snapshots from σ' = snapshots from σ ∧
  snapshots (push to cur) σ' = snapshots to σ ++ [contents (state m) σ] ∧
  (∀ l, l ∈ from ++ push to cur → l ∈ dom (objects σ') ∧ l ∉ {[ s ]} ∪ E) ∧
  {[ s ]} ∪ E ⊆ dom (objects σ').
Proof.
  intros Hind Hsub Hcur Hs Hne Hobj.
  pose proof Hind as (_ & HE & _). simpl in HE.
  assert (Hold : ∀ l, l ∈ dom (objects σ) → objects σ' !! l = objects σ !! l).
  { intros l Hl. rewrite Hobj, !lookup_insert_ne; [done| |]; set_solver. }
  assert (Hst : ∀ l, l ∈ from ++ [top] ++ to → l ∈ dom (objects σ) ∧ l ∉ E).
  { intros l Hl. by apply (independent_stacks E σ m l Hind), Hsub. }
  assert (Hdom : dom (objects σ') = {[ s ]} ∪ ({[ cur ]} ∪ dom (objects σ)))
    by (by rewrite Hobj, !dom_insert_L).
  split; [|split; [|split; [|split]]].
  - unfold contents at 1. by rewrite Hobj, lookup_insert_eq.
  - apply snapshots_agree. intros l Hl. apply Hold, Hst. set_solver.
  - unfold push. rewrite snapshots_app. f_equal.
    + apply snapshots_agree. intros l Hl. apply Hold, Hst. set_solver.
    + simpl. f_equal. unfold contents at 1.
      by rewrite Hobj, lookup_insert_ne, lookup_insert_eq.
  - intros l. unfold push. rewrite Hdom, !elem_of_app, list_elem_of_singleton.
    intros [Hl | [Hl | ->]].
    + assert (l ∈ dom (objects σ) ∧ l ∉ E) by (apply Hst; set_solver).
      set_solver.
    + assert (l ∈ dom (objects σ) ∧ l ∉ E) by (apply Hst; set_solver).
      set_solver.
    + set_solver.
  - rewrite Hdom. set_solver.
Qed.

Lemma rollbackState_view E σ m h previousState :
  independent E (σ, m) → stateHistory m = push h previousState →
  ∃ c', rollbackState (σ, m) = (c', None) ∧
    view_of c' =
      View (contents previousState σ) (snapshots h σ)
           (snapshots (redoStack m) σ ++ [contents (state m) σ]) ∧
    independent ({[ state c'.2 ]} ∪ E) c'.
Proof.
  intros Hind Hh.
  assert (Hprev : previousState ∈ dom (objects σ)).
  { apply (independent_stacks E σ m _ Hind). rewrite Hh. unfold push.
    set_solver. }
  destruct (rollbackState_spec σ m h previousState Hh Hprev)
    as (σ' & s & cur & -> & Hcur & Hs & Hne & Hobj & _).
  destruct (move_view E σ σ' m s cur h (redoStack m) previousState)
    as (Hstate & Hfrom & Hto & Hst & HE); try done.
  { intros l. rewrite Hh. unfold push. set_solver. }
  eexists. split; [reflexivity|]. split.
  - unfold view_of. simpl. by rewrite Hstate, Hfrom, Hto.
  - apply independent_intro; simpl; [set_solver|done|done].
Qed.

Lemma redoState_view E σ m r nextState :
  independent E (σ, m) → redoStack m = push r nextState →
  ∃ c', redoState (σ, m) = (c', None) ∧
    view_of c' =
      View (contents nextState σ)
           (snapshots (stateHistory m) σ ++ [contents (state m) σ])
           (snapshots r σ) ∧
    independent ({[ state c'.2 ]} ∪ E) c'.
Proof.
  intros Hind Hr.
  assert (Hnext : nextState ∈ dom (objects σ)).
  { apply (independent_stacks E σ m _ Hind). rewrite Hr. unfold push.
    set_solver. }
  destruct (redoState_spec σ m r nextState Hr Hnext)
    as (σ' & s & cur & -> & Hcur & Hs & Hne & Hobj & _).
  destruct (move_view E σ σ' m s cur r (stateHistory m) nextState)
    as (Hstate & Hfrom & Hto & Hst & HE); try done.
  { intros l. rewrite Hr. unfold push. set_solver. }
  eexists. split; [reflexivity|]. split.
  - unfold view_of. simpl. by rewrite Hstate, Hfrom, Hto.
  - apply independent_intro; simpl; [set_solver|done|].
    intros l Hl. apply Hst. set_solver.
Qed.
End views.

(** ** Mutation through an outside reference *)

Section frames.
Implicit Types (σ : store) (l : loc) (o : obj) (m : TransitionX)
  (E : gset loc).

Lemma frame_refl E σ : frame E σ σ.
Proof. by split. Qed.

Lemma frame_trans E σ1 σ2 σ3 : frame E σ1 σ2 → frame E σ2 σ3 → frame E σ1 σ3.
Proof.
  intros [Hd1 H1] [Hd2 H2]. split; [congruence|].
  intros l Hl. by rewrite H2, H1.
Qed.

Lemma frame_log E m msg d σ : frame E σ (log m msg d σ).
Proof. split; by rewrite objects_log. Qed.

Lemma frame_write E σ l o :
  l ∈ E → l ∈ dom (objects σ) → frame E σ (write l o σ).
Proof.
  intros HE Hl. split.
  - rewrite dom_write. set_solver.
  - intros l' Hl'. unfold write. simpl. rewrite lookup_insert_ne; [done|].
    set_solver.
Qed.

(** Whatever is written through outside references, the snapshots keep
    their properties and stay out of reach. *)
Lemma frame_independent E σ σ' m :
  independent E (σ, m) → frame E σ σ' →
  independent E (σ', m) ∧
  snapshots (stateHistory m) σ' = snapshots (stateHistory m) σ ∧
  snapshots (redoStack m) σ' = snapshots (redoStack m) σ.
Proof.
  intros Hind [Hdom Hout]. pose proof Hind as (Hs & HE & _). simpl in *.
  assert (Hst : ∀ l, l ∈ stateHistory m ++ redoStack m →
                     l ∈ dom (objects σ) ∧ l ∉ E)
    by (intros l; apply (independent_stacks E σ m l Hind)).
  split; [|split].
  - apply independent_intro; [done|by rewrite Hdom|].
    intros l Hl. rewrite Hdom. by apply Hst.
  - apply snapshots_agree. intros l Hl. apply Hout, Hst. set_solver.
  - apply snapshots_agree. intros l Hl. apply Hout, Hst. set_solver.
Qed.

(** The handler leaves the instance as it is, and writes through the
    current state reference only. *)
Lemma createTransition_frame E name args σ m :
  independent E (σ, m) →
  ∃ σ' p, createTransition name args (σ, m) = ((σ', m), p) ∧
    frame E σ σ' ∧ registries σ' = registries σ ∧
    (∀ l, target_of p = Some l → l = state m).
Proof.
  intros (Hs & HE & _). simpl in *.
  assert (Hw : ∀ o σ1, frame E σ σ1 → frame E σ (write (state m) o σ1)).
  { intros o σ1 H1. eapply frame_trans; [exact H1|].
    apply frame_write; [done|]. destruct H1 as [-> _]. set_solver. }
  assert (Hl : ∀ msg d σ1, frame E σ σ1 → frame E σ (log m msg d σ1)).
  { intros msg d σ1 H1. eapply frame_trans; [exact H1|apply frame_log]. }
  unfold createTransition.
  destruct (get _ _ _) as [[f|v]|]; simpl.
  - destruct (f args _) as [o [| e | later settles]].
    all: try catch_cases.
    all: eexists _, _; (split; [reflexivity|]).
    all: split; [auto using frame_refl|].
    all: split; [by repeat (rewrite registries_log || rewrite registries_write)|].
    all: simpl; congruence.
  - destruct (truthy_value v); try catch_cases;
      eexists _, _; (split; [reflexivity|]).
    all: split; [auto using frame_refl|].
    all: split; [by rewrite ?registries_log|].
    all: simpl; congruence.
  - eexists _, _. split; [reflexivity|].
    split; [auto using frame_refl|].
    split; [by rewrite ?registries_log|]. simpl. congruence.
Qed.

Lemma settle_frame E p σ m :
  independent E (σ, m) → (∀ l, target_of p = Some l → l ∈ E) →
  ∃ σ' r, settle p (σ, m) = ((σ', m), r) ∧
    frame E σ σ' ∧ registries σ' = registries σ.
Proof.
  intros (Hs & HE & _) Ht. simpl in *. unfold settle.
  destruct p as [e | name [| target later [e|]]]; simpl in *;
    try catch_cases; eexists _, _; (split; [reflexivity|]).
  - split; [apply frame_refl|done].
  - split; [apply frame_log|by rewrite registries_log].
  - split; [|done].
    apply frame_write; [by apply Ht|]. specialize (Ht target eq_refl).
    set_solver.
  - split; [|by rewrite registries_log].
    eapply frame_trans; [|apply frame_log].
    apply frame_write; [by apply Ht|]. specialize (Ht target eq_refl).
    set_solver.
  - split; [|by rewrite registries_log].
    eapply frame_trans; [|apply frame_log].
    apply frame_write; [by apply Ht|]. specialize (Ht target eq_refl).
    set_solver.
Qed.

Lemma await_transition_frame E name args σ m :
  independent E (σ, m) →
  ∃ σ' r, await_transition name args (σ, m) = ((σ', m), r) ∧
    frame E σ σ' ∧ registries σ' = registries σ.
Proof.
  intros Hind. unfold await_transition.
  destruct (createTransition_frame E name args σ m Hind)
    as (σ1 & p & -> & H1 & Hr1 & Ht).
  destruct (frame_independent E σ σ1 m Hind H1) as (Hind1 & _).
  destruct (settle_frame E p σ1 m Hind1) as (σ2 & r & -> & H2 & Hr2).
  { intros l Hl. rewrite (Ht l Hl). by destruct Hind as (? & _). }
  eexists _, _. split; [reflexivity|]. split; [|congruence].
  by eapply frame_trans.
Qed.
End frames.

(** ** Saves and rollbacks *)

Section lifo.
Implicit Types (σ : store) (m : TransitionX) (E : gset loc) (c : config).

Lemma mutate_frame E f σ m :
  independent E (σ, m) →
  ∃ σ', mutate f (σ, m) = (σ', m) ∧ frame E σ σ'.
Proof.
  intros (Hs & HE & _). simpl in *. eexists. split; [reflexivity|].
  apply frame_write; [done|set_solver].
Qed.

(** A call that moves no snapshot keeps the stacks, but for the snapshot
    that [Save] pushes. *)
Lemma perform_undo E op c :
  independent E c → moves op = false →
  independent E (perform op c).1 ∧
  undo (view_of (perform op c).1) =
    undo (view_of c) ++ (if op is Save then [current (view_of c)] else []).
Proof.
  destruct c as [σ m]. intros Hind Hop.
  destruct op as [| | | f | name args]; try done; cbn [perform fst].
  - destruct (saveState_view E σ m Hind) as (_ & -> & Hind'). by split.
  - destruct (mutate_frame E f σ m Hind) as (σ' & -> & Hf).
    destruct (frame_independent E σ σ' m Hind Hf) as (? & Hu & _).
    split; [done|]. simpl. by rewrite app_nil_r.
  - destruct (await_transition_frame E name args σ m Hind)
      as (σ' & r & -> & Hf & _).
    destruct (frame_independent E σ σ' m Hind Hf) as (? & Hu & _).
    split; [done|]. simpl. by rewrite app_nil_r.
Qed.

Lemma run_undo E ops c :
  independent E c → Forall (λ op, moves op = false) ops →
  independent E (run ops c) ∧
  undo (view_of (run ops c)) = undo (view_of c) ++ saved ops c.
Proof.
  intros Hind Hops. revert c Hind.
  induction Hops as [|op ops Hop _ IH]; intros c Hind; cbn [run saved].
  - by rewrite app_nil_r.
  - destruct (perform_undo E op c Hind Hop) as (Hind' & Hu).
    destruct (IH _ Hind') as (? & ->). split; [done|].
    rewrite Hu, <- app_assoc. by destruct op.
Qed.

(** As many calls of [rollbackState] as there are snapshots at the top of
    the undo stack go through them from the most recent one. *)
Lemma rollbacks_undo s : ∀ E c u,
  independent E c → undo (view_of c) = u ++ s →
  rollbacks (length s) c = Some (reverse s).
Proof.
  induction s as [|p s IH] using rev_ind; intros E [σ m] u Hind Hu; [done|].
  rewrite length_app, Nat.add_1_r, reverse_snoc. simpl.
  unfold view_of, snapshots in Hu. simpl in Hu. rewrite app_assoc in Hu.
  apply fmap_app_inv in Hu as (h & top & Hh & Htop & Hm).
  symmetry in Htop. apply fmap_cons_inv in Htop as (prev & t & Hp & Ht & ->).
  symmetry in Ht. apply fmap_nil_inv in Ht as ->.
  destruct (rollbackState_view E σ m h prev Hind Hm) as (c' & -> & Hv & Hind').
  rewrite (IH _ c' u Hind').
  - simpl. do 2 f_equal.
    change (contents (state c'.2) c'.1) with (current (view_of c')).
    by rewrite Hv.
  - by rewrite Hv.
Qed.
End lifo.

(** C1.  From any well-formed instance, after any sequence of [saveState]
    calls, in-place mutations of the state and awaited transitions, as many
    calls of [rollbackState] as the sequence has [saveState] calls all
    succeed, and the states they restore are, in order, the states that were
    current at those [saveState] calls, the last one first. *)
Theorem rollbackState_restores_saved_lifo (c : config) (ops : list operation) :
  well_formed c → Forall (λ op, moves op = false) ops →
  rollbacks (length (saved ops c)) (run ops c) = Some (reverse (saved ops c)).
Proof.
  intros Hwf Hops.
  destruct (run_undo _ ops c Hwf Hops) as (Hind & Hu).
  by eapply rollbacks_undo.
Qed.

(** ** Rollback and redo *)

Section round_trip.
Implicit Types (σ : store) (m : TransitionX) (E : gset loc) (c : config).

(** The references of the stacks after a successful [rollbackState]. *)
Lemma rollbackState_stacks σ m h previousState :
  stateHistory m = push h previousState →
  let m' := (rollbackState (σ, m)).1.2 in
  (rollbackState (σ, m)).2 = None ∧ stateHistory m' = h ∧
  ∃ current, redoStack m' = push (redoStack m) current.
Proof.
  intros Hh. unfold rollbackState. rewrite Hh, pop_push, length_push.
  destruct (decide (0 < S (length h))); [|lia]. simpl. eauto.
Qed.

Lemma redoState_stacks σ m r nextState :
  redoStack m = push r nextState →
  let m' := (redoState (σ, m)).1.2 in
  (redoState (σ, m)).2 = None ∧ redoStack m' = r ∧
  ∃ current, stateHistory m' = push (stateHistory m) current.
Proof.
  intros Hr. unfold redoState. rewrite Hr, pop_push, length_push.
  destruct (decide (0 < S (length r))); [|lia]. simpl. eauto.
Qed.

(** A [rollbackState] that succeeds had a snapshot to go back to. *)
Lemma rollbackState_succeeds σ m c' :
  rollbackState (σ, m) = (c', None) → ∃ h prev, stateHistory m = push h prev.
Proof.
  intros Hrb. apply stack_top. destruct (stateHistory m) eqn:Hh; [|simpl; lia].
  by rewrite (rollbackState_empty σ m Hh) in Hrb.
Qed.

Lemma redoState_succeeds σ m c' :
  redoState (σ, m) = (c', None) → ∃ r next, redoStack m = push r next.
Proof.
  intros Hrd. apply stack_top. destruct (redoStack m) eqn:Hr; [|simpl; lia].
  by rewrite (redoState_empty σ m Hr) in Hrd.
Qed.

Lemma round_trip E c :
  independent E c → 0 < length (stateHistory c.2) →
  ∃ c1 c2 E', rollbackState c = (c1, None) ∧ redoState c1 = (c2, None) ∧
    view_of c2 = view_of c ∧ independent E' c2 ∧
    0 < length (stateHistory c2.2).
Proof.
  destruct c as [σ m]. intros Hind Hlen. simpl in Hlen.
  destruct (stack_top _ Hlen) as (h & prev & Hh).
  destruct (rollbackState_view E σ m h prev Hind Hh)
    as ([σ1 m1] & Hrb & Hv1 & Hind1).
  destruct (rollbackState_stacks σ m h prev Hh) as (_ & Hh1 & cur & Hr1).
  rewrite Hrb in Hh1, Hr1. simpl in Hh1, Hr1.
  destruct (redoState_view _ σ1 m1 _ cur Hind1 Hr1)
    as ([σ2 m2] & Hrd & Hv2 & Hind2).
  destruct (redoState_stacks σ1 m1 _ cur Hr1) as (_ & _ & cur' & Hh2).
  rewrite Hrd in Hh2. simpl in Hh2.
  exists (σ1, m1), (σ2, m2), ({[ state m2 ]} ∪ ({[ state m1 ]} ∪ E)).
  do 2 (split; [done|]). split; [|split; [done|]].
  - rewrite Hv2. unfold view_of in Hv1 |- *. simpl in Hv1 |- *.
    injection Hv1 as Hs1 Hu1 Hred1.
    rewrite Hr1 in Hred1. unfold push in Hred1.
    rewrite snapshots_app in Hred1. simpl in Hred1.
    apply app_inj_tail in Hred1 as [Hred1 Hcur].
    rewrite Hh1 in Hu1.
    rewrite Hs1, Hh1, Hu1, Hred1, Hcur, Hh. unfold push.
    by rewrite snapshots_app.
  - simpl. rewrite Hh2, length_push. lia.
Qed.

Lemma round_trips_view n : ∀ E c,
  independent E c → 0 < length (stateHistory c.2) →
  ∃ c', round_trips n c = Some c' ∧ view_of c' = view_of c.
Proof.
  induction n as [|n IH]; intros E c Hind Hlen; simpl; [by exists c|].
  destruct (round_trip E c Hind Hlen)
    as (c1 & c2 & E' & -> & -> & Hv & Hind' & Hlen').
  destruct (IH E' c2 Hind' Hlen') as (c' & -> & Hv').
  exists c'. split; [done|congruence].
Qed.
End round_trip.

(** C2.  When the undo stack of a well-formed instance is not empty,
    [rollbackState()] succeeds, the [redoState()] that follows succeeds, and
    the state is then what it was before the rollback; so it is after any
    number of such pairs, and the two stacks hold what they held. *)
Theorem rollbackState_redoState_round_trip (c : config) :
  well_formed c → 0 < length (stateHistory c.2) →
  (∃ c1 c2, rollbackState c = (c1, None) ∧ redoState c1 = (c2, None) ∧
     contents (state c2.2) c2.1 = contents (state c.2) c.1) ∧
  ∀ n, ∃ c', round_trips n c = Some c' ∧ view_of c' = view_of c.
Proof.
  intros Hwf Hlen. split.
  - destruct (round_trip _ c Hwf Hlen) as (c1 & c2 & E' & ? & ? & Hv & _).
    exists c1, c2. do 2 (split; [done|]).
    change (current (view_of c2) = current (view_of c)). by rewrite Hv.
  - intros n. by eapply round_trips_view.
Qed.

(** ** Failing calls and stack sizes *)

Section stacks.
Implicit Types (σ : store) (m : TransitionX) (c : config).

(** The handler never assigns a member of the instance. *)
Lemma createTransition_instance name args σ m :
  (createTransition name args (σ, m)).1.2 = m.
Proof.
  unfold createTransition. destruct (get _ _ _) as [[f|v]|]; simpl; [| |done].
  - by destruct (f args _) as [o [| e | later settles]]; try catch_cases.
  - by destruct (truthy_value v); try catch_cases.
Qed.

Lemma settle_instance p σ m : (settle p (σ, m)).1.2 = m.
Proof.
  unfold settle.
  by destruct p as [e | name [| target later [e|]]]; try catch_cases.
Qed.

Lemma await_transition_instance name args c :
  (await_transition name args c).1.2 = c.2.
Proof.
  destruct c as [σ m]. unfold await_transition.
  pose proof (createTransition_instance name args σ m) as Hc.
  destruct (createTransition name args (σ, m)) as [[σ1 m1] p].
  simpl in Hc. subst m1. apply settle_instance.
Qed.

Lemma saveState_instance σ m :
  (saveState (σ, m)).2 =
    Build (state m) (transitions m) (debug m)
          (push (stateHistory m) (fresh (dom (objects σ)))) [].
Proof. done. Qed.

(** With an empty redo stack, only [rollbackState] can fill it. *)
Lemma perform_redoStack_empty op c :
  is_rollback op = false → redoStack c.2 = [] →
  redoStack (perform op c).1.2 = [].
Proof.
  destruct c as [σ m]. intros Hop Hr.
  destruct op as [| | | f | name args]; try done; cbn [perform fst].
  - by rewrite redoState_empty.
  - by rewrite await_transition_instance.
Qed.

Lemma run_redoStack_empty ops : ∀ c,
  Forall (λ op, is_rollback op = false) ops → redoStack c.2 = [] →
  redoStack (run ops c).2 = [].
Proof.
  induction ops as [|op ops IH]; intros c Hops Hr; [done|].
  apply Forall_cons in Hops as [Hop Hops]. cbn [run].
  by apply IH, perform_redoStack_empty.
Qed.
End stacks.

(** C3, as the code has it.  [saveState] empties the redo stack, whatever it
    held; after it, and after any calls that follow other than
    [rollbackState], [redoState] throws an [Error] whose message is
    "No state to redo." and changes nothing but the console. *)
Theorem saveState_clears_redoStack (c : config) (ops : list operation) :
  Forall (λ op, is_rollback op = false) ops →
  redoStack (saveState c).2 = [] ∧
  let c' := run ops (saveState c) in
  redoState c' =
    ((log c'.2 "No state to redo." None c'.1, c'.2),
     Some (Error "No state to redo.")).
Proof.
  intros Hops. destruct c as [σ m]. split; [done|]. intros c'.
  assert (Hr : redoStack c'.2 = []) by by apply run_redoStack_empty.
  destruct c' as [σ' m']. by apply redoState_empty.
Qed.

(** C4, as the code has it.  With an empty undo stack, [rollbackState]
    throws an [Error] whose message is "No saved state to rollback to.";
    the instance, with its state reference and its two stacks, and every
    object of the store are as they were. *)
Theorem rollbackState_no_history (c : config) :
  stateHistory c.2 = [] →
  ∃ σ', rollbackState c = ((σ', c.2), Some (Error "No saved state to rollback to."))
    ∧ objects σ' = objects c.1 ∧ registries σ' = registries c.1
    ∧ view_of (σ', c.2) = view_of c.
Proof.
  destruct c as [σ m]. simpl. intros Hh. eexists.
  split; [by apply rollbackState_empty|].
  split; [apply objects_log|]. split; [apply registries_log|].
  unfold view_of. simpl. by rewrite contents_log, !snapshots_log.
Qed.

(** C6, as the code has it.  A call that succeeds changes the sizes of the
    stacks as follows: [saveState] adds one snapshot to the undo stack and
    leaves the redo stack empty, whatever its size was; [rollbackState]
    takes one from the undo stack and adds one to the redo stack;
    [redoState] takes one from the redo stack and adds one to the undo
    stack; a mutation or a transition changes neither. *)
Theorem stack_sizes (op : operation) (c c' : config) :
  perform op c = (c', None) →
  let undo_size c := length (stateHistory c.2) in
  let redo_size c := length (redoStack c.2) in
  match op with
  | Save => undo_size c' = S (undo_size c) ∧ redo_size c' = 0
  | Rollback => S (undo_size c') = undo_size c ∧ redo_size c' = S (redo_size c)
  | Redo => undo_size c' = S (undo_size c) ∧ S (redo_size c') = redo_size c
  | Mutate _ | Transition _ _ =>
    undo_size c' = undo_size c ∧ redo_size c' = redo_size c
  end.
Proof.
  destruct c as [σ m]. intros Hop. simpl.
  destruct op as [| | | f | name args]; cbn [perform] in Hop.
  - injection Hop as <-. rewrite saveState_instance. simpl.
    by rewrite length_push.
  - destruct (decide (0 < length (stateHistory m))) as [Hlen|Hlen].
    + destruct (stack_top _ Hlen) as (h & prev & Hh).
      destruct (rollbackState_stacks σ m h prev Hh) as (_ & Hh' & cur & Hr').
      rewrite Hop in Hh', Hr'. simpl in Hh', Hr'.
      by rewrite Hh', Hr', Hh, !length_push.
    + rewrite rollbackState_empty in Hop; [done|].
      destruct (stateHistory m); [done|simpl in Hlen; lia].
  - destruct (decide (0 < length (redoStack m))) as [Hlen|Hlen].
    + destruct (stack_top _ Hlen) as (r & next & Hr).
      destruct (redoState_stacks σ m r next Hr) as (_ & Hr' & cur & Hh').
      rewrite Hop in Hh', Hr'. simpl in Hh', Hr'.
      by rewrite Hh', Hr', Hr, !length_push.
    + rewrite redoState_empty in Hop; [done|].
      destruct (redoStack m); [done|simpl in Hlen; lia].
  - by injection Hop as <-.
  - pose proof (await_transition_instance name args (σ, m)) as Hm.
    rewrite Hop in Hm. simpl in Hm. by rewrite Hm.
Qed.

(** ** Construction *)

(** C9.  The instance holds copies of the two objects it is constructed
    from: its state and its transitions are new objects with the
    properties of the originals, and whatever properties the originals are
    given afterwards, those of the copies stay, and so does every lookup
    of a transition. *)
Theorem constructor_copies (σ : store) (i t : loc) (d : option bool) :
  i ∈ dom (objects σ) → t ∈ dom (registries σ) →
  let c := constructor (Some i) (Some t) d σ in
  state c.2 ≠ i ∧ transitions c.2 ≠ t ∧
  stateHistory c.2 = [] ∧ redoStack c.2 = [] ∧
  ∀ (o : obj) (r : registry),
    let σ' := write_registry t r (write i o c.1) in
    contents (state c.2) σ' = contents i σ ∧
    registry_at (transitions c.2) σ' = registry_at t σ ∧
    ∀ name, get (transitions c.2) name σ' = get (transitions c.2) name c.1.
Proof.
  intros Hi Ht c.
  assert (Hs : state c.2 ≠ i).
  { simpl. intros Heq. apply (is_fresh (dom (objects σ))). by rewrite Heq. }
  assert (Hr : transitions c.2 ≠ t).
  { simpl. intros Heq. apply (is_fresh (dom (registries σ))). by rewrite Heq. }
  do 4 (split; [done|]). intros o r σ'.
  assert (Hreg : registry_at (transitions c.2) σ' = registry_at t σ).
  { unfold registry_at, σ'. simpl.
    by rewrite lookup_insert_ne, lookup_insert_eq. }
  split; [|split; [done|]].
  - unfold contents, σ'. simpl. by rewrite lookup_insert_ne, lookup_insert_eq.
  - intros name. unfold get. rewrite Hreg.
    unfold registry_at. simpl. by rewrite lookup_insert_eq.
Qed.

(** ** Transitions *)

(** C10.  When the function registered under a name returns without
    throwing and without a promise, the properties it gave the state are
    those of the state of the instance as soon as the handler has been
    called: the promise of the handler is still pending. *)
Theorem createTransition_synchronous (σ : store) (m : TransitionX)
    (name : string) (args : list value) (f : transition_fn) (o : obj) :
  registry_at (transitions m) σ !! name = Some (PFunction f) →
  f args (contents (state m) σ) = (o, Returns) →
  ∃ σ', createTransition name args (σ, m)
          = ((σ', m), Suspended name NotAPromise)
    ∧ contents (state m) σ' = o.
Proof.
  intros Hf Hreturns. unfold createTransition. rewrite get_log.
  unfold get. rewrite Hf. simpl. rewrite !contents_log, Hreturns.
  eexists. split; [reflexivity|]. apply contents_write_eq.
Qed.

(** C5, at a name the registry does not have.  The instance of the tests
    registers [eat] and [rest]; the handler called with [toString] finds
    [Object.prototype.toString], calls it, and its promise is fulfilled: no
    error says that the transition is not defined. *)
Theorem createTransition_inherited_name :
  Tests.transitions !! "toString" = None ∧
  registry_at (transitions Tests.tx.2) Tests.tx.1 !! "toString" = None ∧
  (createTransition "toString" [] Tests.tx).2
    = Suspended "toString" NotAPromise ∧
  (await_transition "toString" [] Tests.tx).2 = None.
Proof. repeat split; vm_compute; reflexivity. Qed.

(** What the handler does with a name that no lookup finds: it rejects,
    and only the console has changed. *)
Lemma createTransition_undefined (σ : store) (m : TransitionX)
    (name : string) (args : list value) :
  get (transitions m) name σ = None →
  ∃ σ', createTransition name args (σ, m)
          = ((σ', m), Rejected (Error ("Transition " +:+ dquote +:+ name
                                       +:+ dquote +:+ " is not defined.")))
    ∧ objects σ' = objects σ ∧ registries σ' = registries σ.
Proof.
  intros Hget. unfold createTransition. rewrite get_log, Hget.
  eexists. split; [reflexivity|]. by rewrite !objects_log, !registries_log.
Qed.

(** ** Wrapped functions *)

(** C7, at the wrapped function of the README.  The [state] that the
    function was given is the object that was the state when it was called.
    After its [rollbackState()], the instance has another state object, with
    [hunger] back to "hungry", while the function still reads "satisfied"
    from its [state]; and what it then writes to its [state] does not reach
    the state of the instance. *)
Theorem wrap_state_is_stale :
  let bundle_state := state Tests.tx.2 in
  (let r := wrap Readme.eatFunction [] Tests.tx in
   r.2 = None ∧ state r.1.2 ≠ bundle_state ∧
   contents bundle_state r.1.1 !! "hunger" = Some (VStr "satisfied") ∧
   contents (state r.1.2) r.1.1 !! "hunger" = Some (VStr "hungry")) ∧
  (let r := wrap Readme.writeAfterRollback [] Tests.tx in
   r.2 = None ∧
   contents bundle_state r.1.1 !! "hunger" = Some (VStr "full") ∧
   contents (state r.1.2) r.1.1 !! "hunger" = Some (VStr "hungry")).
Proof. repeat split; vm_compute; (reflexivity || discriminate). Qed.

(** ** Every instance a program can reach *)

Section reachable.
Implicit Types (σ : store) (m : TransitionX) (E : gset loc) (c : config).

Lemma constructor_independent σ initialState transitions debug :
  let c := constructor initialState transitions debug σ in
  independent (dom (objects c.1)) c.
Proof.
  intros c. apply independent_intro; [|done|].
  - destruct initialState, transitions; simpl; set_solver.
  - destruct initialState, transitions; simpl; set_solver.
Qed.

Lemma independent_grow E σ m l :
  independent E (σ, m) → l = state m → independent ({[ l ]} ∪ E) (σ, m).
Proof.
  intros Hind ->. pose proof Hind as (Hs & HE & _).
  apply independent_intro; [set_solver|set_solver|].
  intros l Hl. destruct (independent_stacks E σ m l Hind Hl). set_solver.
Qed.

Lemma rollbackState_independent E c :
  independent E c →
  let c' := (rollbackState c).1 in independent ({[ state c'.2 ]} ∪ E) c'.
Proof.
  destruct c as [σ m]. intros Hind.
  destruct (decide (0 < length (stateHistory m))) as [Hlen|Hlen].
  - destruct (stack_top _ Hlen) as (h & prev & Hh).
    by destruct (rollbackState_view E σ m h prev Hind Hh) as (c' & -> & _ & ?).
  - rewrite rollbackState_empty
      by (destruct (stateHistory m); [done|simpl in Hlen; lia]).
    simpl. apply independent_grow; [|done].
    by apply (frame_independent E σ), frame_log.
Qed.

Lemma redoState_independent E c :
  independent E c →
  let c' := (redoState c).1 in independent ({[ state c'.2 ]} ∪ E) c'.
Proof.
  destruct c as [σ m]. intros Hind.
  destruct (decide (0 < length (redoStack m))) as [Hlen|Hlen].
  - destruct (stack_top _ Hlen) as (r & next & Hr).
    by destruct (redoState_view E σ m r next Hind Hr) as (c' & -> & _ & ?).
  - rewrite redoState_empty
      by (destruct (redoStack m); [done|simpl in Hlen; lia]).
    simpl. apply independent_grow; [|done].
    by apply (frame_independent E σ), frame_log.
Qed.

(** The invariant of the class. *)
Lemma reachable_independent E c : reachable E c → independent E c.
Proof.
  induction 1 as [σ i t d Hi c | E [σ m] _ IH | E c _ IH c' | E c _ IH c'
                 | E [σ m] name args _ IH | E [σ m] p _ IH Hp
                 | E σ m l o _ IH Hl | E σ m msg d _ IH].
  - apply constructor_independent.
  - by destruct (saveState_view E σ m IH) as (_ & _ & ?).
  - by apply rollbackState_independent.
  - by apply redoState_independent.
  - destruct (createTransition_frame E name args σ m IH)
      as (σ' & p & -> & Hf & _). by apply (frame_independent E σ).
  - destruct (settle_frame E p σ m IH Hp) as (σ' & r & -> & Hf & _).
    by apply (frame_independent E σ).
  - apply (frame_independent E σ); [done|].
    apply frame_write; [done|]. destruct IH as (_ & HE & _). set_solver.
  - by apply (frame_independent E σ), frame_log.
Qed.

(** Every instance that a program has is well formed. *)
Lemma reachable_well_formed E c : reachable E c → well_formed c.
Proof. intros Hc. by eapply independent_well_formed, reachable_independent. Qed.
End reachable.

(** C8.  In every reachable instance: the handler gives a registered
    function the state object itself, so the properties the function leaves
    are those of the state of the instance when the handler returns, and,
    when the function goes on writing until its promise settles, those of
    the state of the instance when the awaited handler is done; the
    snapshot that [saveState], [rollbackState] or [redoState] pushes has the
    properties of the state at that time; and no snapshot of either stack is
    an object the outside has a reference to, the current state among them,
    so whatever is written to such an object, the snapshots keep their
    properties. *)
Theorem snapshots_are_independent (E : gset loc) (c : config) :
  reachable E c →
  (∀ name args f,
     registry_at (transitions c.2) c.1 !! name = Some (PFunction f) →
     let c' := (createTransition name args c).1 in
     state c'.2 = state c.2 ∧
     contents (state c'.2) c'.1 = (f args (contents (state c.2) c.1)).1) ∧
  (∀ name args f,
     registry_at (transitions c.2) c.1 !! name = Some (PFunction f) →
     let c' := (await_transition name args c).1 in
     state c'.2 = state c.2 ∧
     contents (state c'.2) c'.1 =
       match f args (contents (state c.2) c.1) with
       | (o, Promises later _) => later o
       | (o, _) => o
       end) ∧
  last (undo (view_of (saveState c))) = Some (current (view_of c)) ∧
  (∀ c', rollbackState c = (c', None) →
     last (redo (view_of c')) = Some (current (view_of c))) ∧
  (∀ c', redoState c = (c', None) →
     last (undo (view_of c')) = Some (current (view_of c))) ∧
  state c.2 ∈ E ∧
  ∀ l o, l ∈ E →
    snapshots (stateHistory c.2) (write l o c.1)
      = snapshots (stateHistory c.2) c.1 ∧
    snapshots (redoStack c.2) (write l o c.1)
      = snapshots (redoStack c.2) c.1.
Proof.
  intros Hind%reachable_independent. destruct c as [σ m].
  split; [|split; [|split; [|split; [|split; [|split]]]]].
  - intros name args f Hf c'. subst c'. cbn [fst snd] in Hf |- *.
    rewrite createTransition_instance. split; [done|].
    unfold createTransition. rewrite get_log. unfold get. rewrite Hf.
    simpl. rewrite !contents_log.
    destruct (f args (contents (state m) σ)) as [o [| e | later settles]];
      try catch_cases; simpl; by rewrite ?contents_log, contents_write_eq.
  - intros name args f Hf c'. subst c'. cbn [fst snd] in Hf |- *.
    rewrite await_transition_instance. split; [done|].
    unfold await_transition, createTransition. rewrite get_log. unfold get.
    rewrite Hf. simpl. rewrite !contents_log.
    destruct (f args (contents (state m) σ)) as [o [| e | later settles]].
    + unfold settle. cbn [fst snd].
      by rewrite contents_log, contents_write_eq.
    + catch_cases; unfold settle; cbn [fst snd];
        by rewrite ?contents_log, contents_write_eq.
    + unfold settle. rewrite contents_write_eq.
      destruct settles as [e|]; try catch_cases; cbn [fst snd];
        by rewrite ?contents_log, contents_write_eq.
  - destruct (saveState_view E σ m Hind) as (_ & -> & _). simpl.
    apply last_snoc.
  - intros c' Hrb.
    destruct (rollbackState_succeeds σ m c' Hrb) as (h & prev & Hh).
    destruct (rollbackState_view E σ m h prev Hind Hh) as (c1 & Hrb' & Hv & _).
    rewrite Hrb in Hrb'. injection Hrb' as ->. rewrite Hv. simpl.
    apply last_snoc.
  - intros c' Hrd.
    destruct (redoState_succeeds σ m c' Hrd) as (r & next & Hr).
    destruct (redoState_view E σ m r next Hind Hr) as (c1 & Hrd' & Hv & _).
    rewrite Hrd in Hrd'. injection Hrd' as ->. rewrite Hv. simpl.
    apply last_snoc.
  - by destruct Hind as (? & _).
  - intros l o Hl. cbn [fst snd].
    assert (Hf : frame E σ (write l o σ)).
    { apply frame_write; [done|]. destruct Hind as (_ & HE & _). set_solver. }
    by destruct (frame_independent E σ _ m Hind Hf) as (_ & ? & ?).
Qed.

Section wrapped.
Implicit Types (σ : store) (m : TransitionX) (E : gset loc) (c : config).

Lemma await_transition_reachable E name args c :
  reachable E c → reachable E (await_transition name args c).1.
Proof.
  intros Hc. unfold await_transition.
  pose proof (reachable_createTransition E c name args Hc) as Hc'.
  destruct c as [σ m].
  pose proof (reachable_independent _ _ Hc) as Hind.
  destruct (createTransition_frame E name args σ m Hind)
    as (σ' & p & Heq & _ & _ & Ht).
  rewrite Heq in Hc' |- *. simpl in Hc'.
  apply reachable_settle; [done|]. intros l Hl.
  rewrite (Ht l Hl). by destruct Hind as (? & _).
Qed.

(** The statements of a wrapped function are steps of [reachable], and so
    is the call of the wrapping function. *)
Lemma run_body_reachable bundle_state body : ∀ E c,
  reachable E c → bundle_state ∈ E →
  ∃ E', reachable E' (run_body bundle_state body c).1.
Proof.
  induction body as [|s body IH]; intros E c Hc Hb; [by exists E|].
  assert (∃ E', reachable E' (run_stmt bundle_state s c).1 ∧ bundle_state ∈ E')
    as (E' & Hc' & Hb').
  { destruct s as [key v | name args | | | | e]; cbn [run_stmt].
    - destruct c as [σ m]. exists E. split; [|done].
      by apply reachable_write.
    - exists E. split; [|done]. by apply await_transition_reachable.
    - exists E. split; [|done]. by apply reachable_saveState.
    - eexists. split; [by apply reachable_rollbackState|]. set_solver.
    - eexists. split; [by apply reachable_redoState|]. set_solver.
    - by exists E. }
  cbn [run_body]. destruct (run_stmt bundle_state s c) as [c' [e|]].
  - by exists E'.
  - by apply (IH E').
Qed.

(** A statement other than a rollback or a redo leaves the reference
    [this.state] as it is: until the first of those, the [state] that a
    wrapped function was given is the state of the instance. *)
Lemma run_body_keeps_state bundle_state body : ∀ c,
  Forall (λ s, s ≠ CallRollbackState ∧ s ≠ CallRedoState) body →
  state (run_body bundle_state body c).1.2 = state c.2.
Proof.
  induction body as [|s body IH]; intros c Hbody; [done|].
  apply Forall_cons in Hbody as [[Hrb Hrd] Hbody]. cbn [run_body].
  assert (Hs : state (run_stmt bundle_state s c).1.2 = state c.2).
  { destruct s as [key v | name args | | | | e]; cbn [run_stmt]; try done.
    - by destruct c.
    - by rewrite await_transition_instance.
    - by destruct c. }
  destruct (run_stmt bundle_state s c) as [c' [e|]]; [done|].
  by rewrite IH.
Qed.

Lemma wrap_reachable E fn args c :
  reachable E c → ∃ E', reachable E' (wrap fn args c).1.
Proof.
  destruct c as [σ m]. intros Hc. unfold wrap.
  set (σ1 := log m _ _ σ).
  destruct (run_body_reachable (state m) (fn_body fn args) E (σ1, m))
    as (E' & Hc').
  { by apply reachable_log. }
  { by destruct (reachable_independent _ _ Hc) as (? & _). }
  destruct (run_body _ _ _) as [[σ' m'] [e|]]; exists E'; [|done].
  catch_cases; [done|]. by apply reachable_log.
Qed.
End wrapped.

(** ** The theorems at the instance of the tests *)

Lemma rollbackState_restores_saved_lifo_witness :
  well_formed Tests.tx ∧
  Forall (λ op, moves op = false) Scenario.two_saves ∧
  rollbacks (length (saved Scenario.two_saves Tests.tx))
            (run Scenario.two_saves Tests.tx)
    = Some (reverse (saved Scenario.two_saves Tests.tx)).
Proof.
  assert (Hwf : well_formed Tests.tx)
    by (apply (bool_decide_unpack _); vm_compute; exact I).
  assert (Hops : Forall (λ op, moves op = false) Scenario.two_saves)
    by (repeat constructor).
  split; [exact Hwf|]. split; [exact Hops|].
  exact (rollbackState_restores_saved_lifo _ _ Hwf Hops).
Defined.

(** The two states that the two rollbacks of the scenario restore. *)
Example two_saves_rollbacks :
  rollbacks 2 (run Scenario.two_saves Tests.tx)
    = Some [ {[ "hunger" := VStr "satisfied"; "energy" := VStr "low" ]};
             {[ "hunger" := VStr "hungry"; "energy" := VStr "low" ]} ].
Proof. vm_compute. reflexivity. Qed.

Lemma rollbackState_redoState_round_trip_witness :
  well_formed Scenario.ate ∧
  0 < length (stateHistory Scenario.ate.2) ∧
  (∃ c1 c2, rollbackState Scenario.ate = (c1, None) ∧
     redoState c1 = (c2, None) ∧
     contents (state c2.2) c2.1
       = contents (state Scenario.ate.2) Scenario.ate.1) ∧
  ∀ n, ∃ c', round_trips n Scenario.ate = Some c' ∧
             view_of c' = view_of Scenario.ate.
Proof.
  assert (Hwf : well_formed Scenario.ate)
    by (apply (bool_decide_unpack _); vm_compute; exact I).
  assert (Hlen : 0 < length (stateHistory Scenario.ate.2))
    by (vm_compute; lia).
  split; [exact Hwf|]. split; [exact Hlen|].
  exact (rollbackState_redoState_round_trip _ Hwf Hlen).
Defined.

(** C3 as it is stated fails on the message: after [saveState], at an
    instance where [redoState] would have succeeded, the error that
    [redoState] throws does not have the message "no state to redo". *)
Lemma saveState_redoState_message_differs :
  (redoState Scenario.rolled_back).2 = None ∧
  message <$> (redoState (saveState Scenario.rolled_back)).2
    ≠ Some "no state to redo".
Proof. split; vm_compute; [reflexivity|discriminate]. Qed.

Lemma saveState_clears_redoStack_witness :
  Forall (λ op, is_rollback op = false) Scenario.after_save ∧
  redoStack (saveState Scenario.rolled_back).2 = [] ∧
  let c' := run Scenario.after_save (saveState Scenario.rolled_back) in
  redoState c' =
    ((log c'.2 "No state to redo." None c'.1, c'.2),
     Some (Error "No state to redo.")).
Proof.
  assert (Hops : Forall (λ op, is_rollback op = false) Scenario.after_save)
    by (repeat constructor).
  split; [exact Hops|].
  exact (saveState_clears_redoStack Scenario.rolled_back _ Hops).
Defined.

(** C4 as it is stated fails on the message: on the fresh instance of the
    tests, the error that [rollbackState] throws does not have the message
    "no saved state to rollback to". *)
Lemma rollbackState_message_differs :
  stateHistory Tests.tx.2 = [] ∧
  message <$> (rollbackState Tests.tx).2
    ≠ Some "no saved state to rollback to".
Proof. split; vm_compute; [reflexivity|discriminate]. Qed.

Lemma rollbackState_no_history_witness :
  stateHistory Tests.tx.2 = [] ∧
  ∃ σ', rollbackState Tests.tx
          = ((σ', Tests.tx.2), Some (Error "No saved state to rollback to."))
    ∧ objects σ' = objects Tests.tx.1
    ∧ registries σ' = registries Tests.tx.1
    ∧ view_of (σ', Tests.tx.2) = view_of Tests.tx.
Proof.
  assert (Hh : stateHistory Tests.tx.2 = []) by reflexivity.
  split; [exact Hh|]. exact (rollbackState_no_history Tests.tx Hh).
Defined.

(** C6 as it is stated fails for [saveState]: with two snapshots on the redo
    stack, it takes both away, which is neither one more nor one less. *)
Lemma saveState_redoStack_size :
  let before := length (redoStack Scenario.two_redos.2) in
  let after := length (redoStack (saveState Scenario.two_redos).2) in
  before = 2 ∧ after = 0 ∧ ¬ (after = S before ∨ S after = before).
Proof. vm_compute. repeat split; [reflexivity..|intros [?|?]; discriminate]. Qed.

Lemma stack_sizes_witness :
  perform Rollback (saveState Tests.tx)
    = ((rollbackState (saveState Tests.tx)).1, None) ∧
  S (length (stateHistory (rollbackState (saveState Tests.tx)).1.2))
    = length (stateHistory (saveState Tests.tx).2) ∧
  length (redoStack (rollbackState (saveState Tests.tx)).1.2)
    = S (length (redoStack (saveState Tests.tx).2)).
Proof.
  assert (Hop : perform Rollback (saveState Tests.tx)
                = ((rollbackState (saveState Tests.tx)).1, None)).
  { cbn [perform].
    assert (Hn : (rollbackState (saveState Tests.tx)).2 = None)
      by (vm_compute; reflexivity).
    destruct (rollbackState (saveState Tests.tx)) as [c' r].
    simpl in Hn. by rewrite Hn. }
  split; [exact Hop|]. exact (stack_sizes Rollback _ _ Hop).
Defined.

Lemma snapshots_are_independent_witness :
  ∃ E, reachable E (saveState Tests.tx) ∧
    (let c' := (await_transition "rest" [] (saveState Tests.tx)).1 in
     state c'.2 = state (saveState Tests.tx).2 ∧
     contents (state c'.2) c'.1
       = <["energy" := VStr "high"]> Tests.initialState) ∧
    state (saveState Tests.tx).2 ∈ E ∧
    ∀ l o, l ∈ E →
      snapshots (stateHistory (saveState Tests.tx).2)
                (write l o (saveState Tests.tx).1)
        = snapshots (stateHistory (saveState Tests.tx).2)
                    (saveState Tests.tx).1.
Proof.
  assert (Hr : reachable (dom (objects Tests.tx.1)) (saveState Tests.tx)).
  { apply reachable_saveState.
    apply (reachable_new Tests.σ0 (Some 1%positive) (Some 1%positive)
             (Some false)).
    intros l [= <-]. apply (bool_decide_unpack _). vm_compute. exact I. }
  assert (Hf : registry_at (transitions (saveState Tests.tx).2)
                 (saveState Tests.tx).1 !! "rest"
               = Some (PFunction Tests.rest)) by (vm_compute; reflexivity).
  assert (Hrest : Tests.rest [] (contents (state (saveState Tests.tx).2)
                                          (saveState Tests.tx).1)
                  = (Tests.initialState,
                     Promises (λ o, <["energy" := VStr "high"]> o) None))
    by (vm_compute; reflexivity).
  exists (dom (objects Tests.tx.1)). split; [exact Hr|].
  destruct (snapshots_are_independent _ _ Hr)
    as (_ & Hawait & _ & _ & _ & Hs & Hw).
  split; [|split; [exact Hs|]].
  - destruct (Hawait "rest" [] Tests.rest Hf) as [Hstate Hcontents].
    split; [exact Hstate|].
    exact (eq_trans Hcontents
             (f_equal (λ r, match r with
                            | (o, Promises later _) => later o
                            | (o, _) => o
                            end) Hrest)).
  - intros l o Hl. exact (proj1 (Hw l o Hl)).
Defined.

Lemma constructor_copies_witness :
  (1%positive ∈ dom (objects Tests.σ0)) ∧
  (1%positive ∈ dom (registries Tests.σ0)) ∧
  ∀ (o : obj) (r : registry),
    let σ' := write_registry 1%positive r (write 1%positive o Tests.tx.1) in
    contents (state Tests.tx.2) σ' = contents 1%positive Tests.σ0.
Proof.
  assert (Hi : 1%positive ∈ dom (objects Tests.σ0))
    by (apply (bool_decide_unpack _); vm_compute; exact I).
  assert (Ht : 1%positive ∈ dom (registries Tests.σ0))
    by (apply (bool_decide_unpack _); vm_compute; exact I).
  split; [exact Hi|]. split; [exact Ht|].
  destruct (constructor_copies Tests.σ0 _ _ (Some false) Hi Ht)
    as (_ & _ & _ & _ & Hc).
  intros o r. exact (proj1 (Hc o r)).
Defined.

Lemma createTransition_synchronous_witness :
  registry_at (transitions Tests.tx.2) Tests.tx.1 !! "eat"
    = Some (PFunction Tests.eat) ∧
  ∃ σ', createTransition "eat" [] Tests.tx
          = ((σ', Tests.tx.2), Suspended "eat" NotAPromise)
    ∧ contents (state Tests.tx.2) σ'
      = {[ "hunger" := VStr "satisfied"; "energy" := VStr "low" ]}.
Proof.
  assert (Hf : registry_at (transitions Tests.tx.2) Tests.tx.1 !! "eat"
               = Some (PFunction Tests.eat)) by (vm_compute; reflexivity).
  split; [exact Hf|].
  refine (createTransition_synchronous Tests.tx.1 Tests.tx.2 "eat" []
            Tests.eat _ Hf _).
  vm_compute. reflexivity.
Defined.

(** * More about the class *)

(** ** Logging *)

Lemma silence_log σ m m' msg d :
  silence (log m msg d σ, m') = silence (σ, m').
Proof. unfold log, silence. by destruct (debug m), d. Qed.

Lemma log_off m msg d σ : debug m = false → log m msg d σ = σ.
Proof. unfold log. by intros ->. Qed.

Lemma silence_write l o σ m :
  silence (write l o σ, m) = (write l o (silence (σ, m)).1, (silence (σ, m)).2).
Proof. done. Qed.

Lemma createTransition_silence name args c :
  silence (createTransition name args c).1
    = (createTransition name args (silence c)).1 ∧
  (createTransition name args c).2 = (createTransition name args (silence c)).2.
Proof.
  destruct c as [σ m]. unfold silence at 2 3. cbn [fst snd].
  set (m0 := Build (state m) (transitions m) false (stateHistory m) (redoStack m)).
  set (σ0 := set_console [] σ).
  unfold createTransition. rewrite !get_log, !contents_log.
  rewrite !(log_off m0) by done.
  change (get (transitions m0) name σ0) with (get (transitions m) name σ).
  change (contents (state m0) σ0) with (contents (state m) σ).
  change (state m0) with (state m).
  destruct (get (transitions m) name σ) as [[f|v]|]; cbn [truthy].
  - destruct (f args _) as [o [| e | later settles]]; cbn [fst snd].
    + by rewrite silence_write, !silence_log.
    + repeat catch_cases; cbn [fst snd]; rewrite ?(log_off m0) by done;
        rewrite ?silence_log, silence_write, !silence_log;
        (split; [done|]); f_equal; apply caught_agree;
        unfold write; cbn; by rewrite ?objects_log.
    + by rewrite silence_write, !silence_log.
  - destruct (truthy_value v); repeat catch_cases; cbn [fst snd];
      rewrite ?(log_off m0) by done; by rewrite !silence_log.
  - cbn [fst snd]. by rewrite !silence_log.
Qed.

Lemma settle_silence p c :
  silence (settle p c).1 = (settle p (silence c)).1 ∧
  (settle p c).2 = (settle p (silence c)).2.
Proof.
  destruct c as [σ m]. unfold silence at 2 3. cbn [fst snd].
  set (m0 := Build (state m) (transitions m) false (stateHistory m) (redoStack m)).
  set (σ0 := set_console [] σ).
  unfold settle. rewrite ?(log_off m0) by done.
  destruct p as [e | name [| target later [e|]]]; cbn [fst snd].
  - done.
  - by rewrite ?(log_off m0), silence_log by done.
  - repeat catch_cases; cbn [fst snd]; rewrite ?(log_off m0) by done;
      rewrite ?silence_log, silence_write; (split; [done|]); f_equal;
      by apply caught_agree.
  - rewrite ?(log_off m0) by done. by rewrite silence_log, silence_write.
Qed.

Lemma await_transition_silence name args c :
  silence (await_transition name args c).1
    = (await_transition name args (silence c)).1 ∧
  (await_transition name args c).2
    = (await_transition name args (silence c)).2.
Proof.
  unfold await_transition.
  destruct (createTransition_silence name args c) as [Hc Hp].
  destruct (createTransition name args c) as [c1 p].
  destruct (createTransition name args (silence c)) as [c2 p2].
  cbn [fst snd] in Hc, Hp. subst. apply settle_silence.
Qed.

Lemma perform_silence op c :
  silence (perform op c).1 = (perform op (silence c)).1 ∧
  (perform op c).2 = (perform op (silence c)).2.
Proof.
  destruct op as [| | | f | name args]; cbn [perform];
    [| | | |apply await_transition_silence];
    destruct c as [[objs regs proto out] [st tr dbg hist redo]].
  - split; [|done]. unfold saveState. cbn. by rewrite silence_log.
  - unfold rollbackState. cbn.
    destruct (decide (0 < length hist)); cbn; by rewrite silence_log.
  - unfold redoState. cbn.
    destruct (decide (0 < length redo)); cbn; by rewrite silence_log.
  - done.
Qed.

Lemma run_stmt_silence b s c :
  silence (run_stmt b s c).1 = (run_stmt b s (silence c)).1 ∧
  (run_stmt b s c).2 = (run_stmt b s (silence c)).2.
Proof.
  destruct s as [key v | name args | | | | e]; cbn [run_stmt].
  - by destruct c.
  - apply await_transition_silence.
  - apply (perform_silence Save).
  - apply (perform_silence Rollback).
  - apply (perform_silence Redo).
  - done.
Qed.

Lemma silence_objects c1 c2 : silence c1 = silence c2 → objects c1.1 = objects c2.1.
Proof. by intros [= ? _]. Qed.

Lemma run_body_silence b body : ∀ c,
  silence (run_body b body c).1 = (run_body b body (silence c)).1 ∧
  (run_body b body c).2 = (run_body b body (silence c)).2.
Proof.
  induction body as [|s body IH]; intros c; [done|]. cbn [run_body].
  destruct (run_stmt_silence b s c) as [Hc He].
  destruct (run_stmt b s c) as [c1 r1].
  destruct (run_stmt b s (silence c)) as [c2 r2].
  cbn [fst snd] in Hc, He. subst. destruct r2 as [e|]; [done|]. apply IH.
Qed.

(** X1.  Logging is observation only: from two instances that differ in
    nothing but the [debug] flag and the console, a call gives two instances
    that differ in nothing else, and throws the same error or none. *)
Theorem perform_ignores_logging (op : operation) (c1 c2 : config) :
  silence c1 = silence c2 →
  silence (perform op c1).1 = silence (perform op c2).1 ∧
  (perform op c1).2 = (perform op c2).2.
Proof.
  intros Heq.
  destruct (perform_silence op c1) as [-> ->].
  destruct (perform_silence op c2) as [-> ->]. by rewrite Heq.
Qed.

(** X2.  The function that [wrap] returns does what the wrapped function
    does with the state of the instance as its [state], and adds lines to
    the console and nothing else.  It throws what the wrapped function
    throws, with one exception: when that is [null] or [undefined], or
    another value whose message cannot be read, its [catch] block throws
    the [TypeError] of reading the message instead. *)
Theorem wrap_adds_logging_only (fn : procedure) (args : list value)
    (c : config) :
  let r := run_body (state c.2) (fn_body fn args) c in
  silence (wrap fn args c).1 = silence r.1 ∧
  (wrap fn args c).2 = (λ e, caught e r.1.1) <$> r.2 ∧
  (∀ e, r.2 = Some e → e ≠ Thrown VNull → e ≠ Thrown VUndefined →
        (∀ l, e ≠ Thrown (VRef l)) → (wrap fn args c).2 = Some e).
Proof.
  intros r. subst r. destruct c as [σ m]. cbn [fst snd].
  assert (Hwrap : silence (wrap fn args (σ, m)).1
                    = silence (run_body (state m) (fn_body fn args) (σ, m)).1 ∧
                  (wrap fn args (σ, m)).2
                    = (λ e, caught e
                         (run_body (state m) (fn_body fn args) (σ, m)).1.1)
                      <$> (run_body (state m) (fn_body fn args) (σ, m)).2).
  { unfold wrap. set (σ1 := log m _ _ σ).
    destruct (run_body_silence (state m) (fn_body fn args) (σ1, m)) as [H1 E1].
    destruct (run_body_silence (state m) (fn_body fn args) (σ, m)) as [H2 E2].
    assert (Hs : silence (σ1, m) = silence (σ, m)) by apply silence_log.
    rewrite Hs in H1, E1. rewrite <- H2 in H1. rewrite <- E2 in E1.
    pose proof (silence_objects _ _ H1) as Hobj.
    destruct (run_body (state m) (fn_body fn args) (σ1, m)) as [[σ' m'] r1].
    destruct (run_body (state m) (fn_body fn args) (σ, m)) as [[σ'' m''] r2].
    cbn [fst snd] in *. subst r2. destruct r1 as [e|]; [|done].
    catch_cases; cbn [fst snd fmap option_fmap option_map];
      rewrite ?silence_log; (split; [done|]); f_equal; by apply caught_agree. }
  destruct Hwrap as [Hs He]. split; [done|]. split; [done|].
  intros e Hr Hnull Hundef Hobj. rewrite He, Hr. cbn. f_equal.
  unfold caught, read_message.
  destruct e as [msg | msg | [| | b | n | text | l]]; try done.
  by destruct (Hobj l).
Qed.

Lemma createTransition_quiet name args c :
  debug c.2 = false →
  console (createTransition name args c).1.1 = console c.1.
Proof.
  destruct c as [σ m]. cbn [fst snd]. intros Hd.
  unfold createTransition. rewrite !(log_off m) by done.
  destruct (get (transitions m) name σ) as [[f|v]|]; cbn [truthy].
  - by destruct (f args _) as [o [| e | later settles]];
      try catch_cases; rewrite ?(log_off m) by done.
  - by destruct (truthy_value v); try catch_cases;
      rewrite ?(log_off m) by done.
  - by rewrite ?(log_off m) by done.
Qed.

Lemma settle_quiet p c :
  debug c.2 = false → console (settle p c).1.1 = console c.1.
Proof.
  destruct c as [σ m]. cbn [fst snd]. intros Hd. unfold settle.
  by destruct p as [e | name [| target later [e|]]];
    try catch_cases; rewrite ?(log_off m) by done.
Qed.

Lemma perform_quiet op c :
  debug c.2 = false →
  console (perform op c).1.1 = console c.1 ∧ debug (perform op c).1.2 = false.
Proof.
  intros Hd. destruct op as [| | | f | name args]; cbn [perform].
  - destruct c as [σ m]. unfold saveState. cbn in *.
    by rewrite log_off by done.
  - destruct c as [σ m]. unfold rollbackState. cbn in *.
    destruct (decide (0 < length (stateHistory m))); cbn;
      by rewrite log_off by done.
  - destruct c as [σ m]. unfold redoState. cbn in *.
    destruct (decide (0 < length (redoStack m))); cbn;
      by rewrite log_off by done.
  - by destruct c.
  - rewrite await_transition_instance. split; [|done].
    unfold await_transition.
    pose proof (createTransition_quiet name args c Hd) as Hc.
    pose proof (createTransition_instance name args c.1 c.2) as Hm.
    destruct c as [σ m]. cbn [fst snd] in *.
    destruct (createTransition name args (σ, m)) as [[σ1 m1] p].
    cbn [fst snd] in *. subst m1. rewrite <- Hc. by apply settle_quiet.
Qed.

(** X3.  With [debug] off, no sequence of calls writes to the console. *)
Theorem debug_off_is_silent (ops : list operation) (c : config) :
  debug c.2 = false → console (run ops c).1 = console c.1.
Proof.
  revert c. induction ops as [|op ops IH]; intros c Hd; [done|]. cbn [run].
  destruct (perform_quiet op c Hd) as [Hc Hd']. by rewrite IH.
Qed.

(** What a catch block lets out, by the value it caught: an error object
    or a primitive value other than [null] and [undefined] as it is, the
    [TypeError] of reading a property of [null] or [undefined] for those. *)
Lemma caught_plain e σ :
  e ≠ Thrown VNull → e ≠ Thrown VUndefined → (∀ l, e ≠ Thrown (VRef l)) →
  caught e σ = e.
Proof.
  intros Hnull Hundef Hobj. unfold caught, read_message.
  destruct e as [msg | msg | [| | b | n | text | l]]; try done.
  by destruct (Hobj l).
Qed.

Lemma caught_nullish e σ :
  e = Thrown VNull ∨ e = Thrown VUndefined → ∃ msg, caught e σ = TypeError msg.
Proof. intros [-> | ->]; by eexists. Qed.

(** X4.  When the function registered under a name throws, what it had
    written to the state before it threw stays, and the promise of the
    handler is rejected with what leaves the handler's [catch] block: the
    error the function threw, unchanged, when that is an error object or a
    primitive value; a [TypeError] when the function threw [null] or
    [undefined], whose message cannot be read. *)
Theorem createTransition_throws (σ : store) (m : TransitionX)
    (name : string) (args : list value) (f : transition_fn) (o : obj)
    (e : error) :
  registry_at (transitions m) σ !! name = Some (PFunction f) →
  f args (contents (state m) σ) = (o, Throws e) →
  ∃ σ', createTransition name args (σ, m) = ((σ', m), Rejected (caught e σ'))
    ∧ await_transition name args (σ, m) = ((σ', m), Some (caught e σ'))
    ∧ contents (state m) σ' = o
    ∧ (e ≠ Thrown VNull → e ≠ Thrown VUndefined → (∀ l, e ≠ Thrown (VRef l)) →
       caught e σ' = e)
    ∧ (e = Thrown VNull ∨ e = Thrown VUndefined →
       ∃ msg, caught e σ' = TypeError msg).
Proof.
  intros Hf Hthrows. unfold await_transition, createTransition.
  rewrite get_log. unfold get. rewrite Hf. cbn [truthy].
  rewrite !contents_log, Hthrows.
  set (σw := write (state m) o _).
  catch_cases;
    [|rewrite <- (caught_agree e σw (log m x None σw)) by apply objects_log];
    eexists; (split; [reflexivity|]); (split; [reflexivity|]);
    (split; [by rewrite ?contents_log; apply contents_write_eq|]);
    (split; [apply caught_plain|apply caught_nullish]).
Qed.

(** X5.  When the function registered under a name returns a promise, the
    handler returns with the state as the call of the function left it and
    waits for the promise; when the promise settles, the state has what the
    function wrote in the meantime.  The handler's promise is then fulfilled
    if the function's promise was; if that was rejected, it is rejected with
    what leaves the handler's [catch] block: the same reason, or a
    [TypeError] when the reason was [null] or [undefined] (a promise
    rejected with no reason). *)
Theorem createTransition_promise (σ : store) (m : TransitionX)
    (name : string) (args : list value) (f : transition_fn) (o : obj)
    (later : obj → obj) (settles : option error) :
  registry_at (transitions m) σ !! name = Some (PFunction f) →
  f args (contents (state m) σ) = (o, Promises later settles) →
  ∃ σ1 σ2,
    createTransition name args (σ, m)
      = ((σ1, m), Suspended name (Deferred (state m) later settles))
    ∧ contents (state m) σ1 = o
    ∧ settle (Suspended name (Deferred (state m) later settles)) (σ1, m)
      = ((σ2, m), (λ e, caught e σ2) <$> settles)
    ∧ contents (state m) σ2 = later o
    ∧ (∀ e, settles = Some e →
         (e ≠ Thrown VNull → e ≠ Thrown VUndefined →
          (∀ l, e ≠ Thrown (VRef l)) → caught e σ2 = e)
         ∧ (e = Thrown VNull ∨ e = Thrown VUndefined →
            ∃ msg, caught e σ2 = TypeError msg)).
Proof.
  intros Hf Hp.
  assert (∃ σ1, createTransition name args (σ, m)
                  = ((σ1, m), Suspended name (Deferred (state m) later settles))
                ∧ contents (state m) σ1 = o) as (σ1 & Hc & Ho).
  { unfold createTransition. rewrite get_log. unfold get. rewrite Hf.
    cbn [truthy]. rewrite !contents_log, Hp.
    eexists. split; [reflexivity|apply contents_write_eq]. }
  assert (∃ σ2, settle (Suspended name (Deferred (state m) later settles))
                       (σ1, m)
                  = ((σ2, m), (λ e, caught e σ2) <$> settles)
                ∧ contents (state m) σ2 = later o) as (σ2 & Hs & Hl).
  { unfold settle. rewrite Ho. set (σ2 := write (state m) (later o) σ1).
    destruct settles as [e|]; [catch_cases|].
    - exists σ2. split; [done|apply contents_write_eq].
    - exists (log m x None σ2). split.
      + cbn. by rewrite (caught_agree e σ2 (log m x None σ2))
          by apply objects_log.
      + rewrite contents_log. apply contents_write_eq.
    - eexists. split; [reflexivity|].
      rewrite contents_log. apply contents_write_eq. }
  exists σ1, σ2. do 4 (split; [done|]).
  intros e _. split; [apply caught_plain|apply caught_nullish].
Qed.

(** X6.  A name registered with a value that is not a function is
    rejected and leaves every object as it is: with the error of an undefined
    transition when the value is falsy, with a [TypeError] when it is
    truthy. *)
Theorem createTransition_not_a_function (σ : store) (m : TransitionX)
    (name : string) (args : list value) (v : value) :
  registry_at (transitions m) σ !! name = Some (PValue v) →
  ∃ σ' e, createTransition name args (σ, m) = ((σ', m), Rejected e)
    ∧ objects σ' = objects σ
    ∧ if truthy_value v
      then ∃ msg, e = TypeError msg
      else e = Error ("Transition " +:+ dquote +:+ name +:+ dquote
                      +:+ " is not defined.").
Proof.
  intros Hv. unfold createTransition. rewrite get_log. unfold get.
  rewrite Hv. cbn [truthy].
  destruct (truthy_value v); eexists _, _; (split; [reflexivity|]);
    (split; [by rewrite !objects_log|]); [by eexists|done].
Qed.

(** X7.  The handler itself never touches the history.  For a registered
    function that acts on the state object it is given and on nothing else
    (it does not call the methods of the instance), an awaited transition,
    however it ends, leaves the instance's references and both stacks as
    they are. *)
Theorem transition_keeps_history (name : string) (args : list value)
    (c : config) :
  well_formed c →
  let c' := (await_transition name args c).1 in
  c'.2 = c.2 ∧ undo (view_of c') = undo (view_of c) ∧
  redo (view_of c') = redo (view_of c) ∧ well_formed c'.
Proof.
  destruct c as [σ m]. intros Hwf c'. subst c'.
  destruct (await_transition_frame _ name args σ m Hwf)
    as (σ' & r & -> & Hf & _).
  destruct (frame_independent _ σ σ' m Hwf Hf) as (Hwf' & Hu & Hr).
  split; [done|]. split; [exact Hu|]. split; [exact Hr|exact Hwf'].
Qed.

(** X8.  When [rollbackState()] is called while the promise of a
    transition function is pending, what the function writes later goes to
    the object it was given, which is no longer the state of the instance:
    the state and the stacks are as the rollback left them. *)
Theorem late_mutation_misses_state (σ : store) (m : TransitionX)
    (name : string) (args : list value) (f : transition_fn) (o : obj)
    (later : obj → obj) (settles : option error) :
  well_formed (σ, m) → 0 < length (stateHistory m) →
  registry_at (transitions m) σ !! name = Some (PFunction f) →
  f args (contents (state m) σ) = (o, Promises later settles) →
  ∃ c1 c2 c3 p,
    createTransition name args (σ, m) = (c1, p) ∧
    rollbackState c1 = (c2, None) ∧
    settle p c2 = (c3, (λ e, caught e c3.1) <$> settles) ∧
    view_of c3 = view_of c2 ∧
    state c2.2 ≠ state m ∧
    contents (state m) c3.1 = later o.
Proof.
  intros Hwf Hlen Hf Hp.
  destruct (createTransition_frame _ name args σ m Hwf)
    as (σ1 & p & Hc & Hfr & _ & _).
  destruct (frame_independent _ σ σ1 m Hwf Hfr) as (Hwf1 & _ & _).
  assert (Hp' : p = Suspended name (Deferred (state m) later settles)
                ∧ contents (state m) σ1 = o).
  { revert Hc. unfold createTransition. rewrite get_log. unfold get.
    rewrite Hf. cbn [truthy]. rewrite !contents_log, Hp.
    intros [= <- <-]. split; [done|]. apply contents_write_eq. }
  destruct Hp' as [-> Ho].
  destruct (stack_top _ Hlen) as (h & prev & Hh).
  assert (Hprev : prev ∈ dom (objects σ1)).
  { apply (independent_stacks _ σ1 m _ Hwf1). rewrite Hh. unfold push.
    set_solver. }
  destruct (rollbackState_spec σ1 m h prev Hh Hprev)
    as (σ2 & s & cur & Hrb & Hcur & Hs & Hne & Hobj & _).
  assert (Hm : state m ∈ dom (objects σ1)).
  { destruct Hwf1 as (Hin & Hsub & _). cbn [fst snd] in *. set_solver. }
  assert (Hsm : s ≠ state m) by (intros ->; done).
  assert (Hcm : cur ≠ state m) by (intros ->; done).
  assert (Hst : ∀ l, l ∈ h ++ push (redoStack m) cur → l ≠ state m).
  { intros l Hl ->. unfold push in Hl.
    rewrite !elem_of_app, list_elem_of_singleton in Hl.
    destruct Hl as [Hl | [Hl | Hl]]; [| |done];
      destruct (independent_stacks _ σ1 m (state m) Hwf1);
      rewrite ?Hh; unfold push; set_solver. }
  set (m2 := Build s (transitions m) (debug m) h (push (redoStack m) cur)).
  assert (Hviews : ∀ σ3,
    objects σ3 = objects (write (state m) (later (contents (state m) σ2)) σ2) →
    view_of (σ3, m2) = view_of (σ2, m2)).
  { intros σ3 Hσ3. unfold view_of.
    cbn [fst snd state stateHistory redoStack m2].
    rewrite (contents_agree _ σ3 s), !(snapshots_agree _ σ3)
      by (intros; by rewrite Hσ3).
    rewrite contents_write_ne by done.
    f_equal; apply snapshots_agree; intros l Hl;
      unfold write; cbn; rewrite lookup_insert_ne; try done;
      intros <-; apply (Hst (state m)); set_solver. }
  assert (Hold : contents (state m) σ2 = o).
  { rewrite <- Ho. apply contents_agree.
    by rewrite Hobj, !lookup_insert_ne. }
  exists (σ1, m), (σ2, m2), (settle (Suspended name (Deferred (state m) later settles)) (σ2, m2)).1,
    (Suspended name (Deferred (state m) later settles)).
  split; [done|]. split; [done|].
  unfold settle. destruct settles as [e|]; try catch_cases; cbn [fst snd].
  - split; [done|]. split; [by apply Hviews|]. split; [done|].
    by rewrite contents_write_eq, Hold.
  - split; [f_equal; cbn; f_equal; apply caught_agree; by rewrite objects_log|].
    split; [apply Hviews; by rewrite objects_log|]. split; [done|].
    by rewrite contents_log, contents_write_eq, Hold.
  - split; [done|]. split; [apply Hviews; by rewrite objects_log|].
    split; [done|]. by rewrite contents_log, contents_write_eq, Hold.
Qed.

(** The wrapped function that throws [null]: what leaves [wrap] is the
    [TypeError] of its catch block, and the save before the throw stays. *)
Example wrap_throwNull :
  let r := wrap Checks.throwNull [] Checks.tx in
  r.2 = Some (TypeError "Cannot read properties of null (reading 'message')")
  ∧ length (stateHistory r.1.2) = 1.
Proof. split; vm_compute; reflexivity. Qed.

(** X9.  With an empty redo stack, [redoState] throws an [Error] whose
    message is "No state to redo."; the instance and every object of the
    store are as they were. *)
Theorem redoState_nothing_to_redo (c : config) :
  redoStack c.2 = [] →
  ∃ σ', redoState c = ((σ', c.2), Some (Error "No state to redo."))
    ∧ objects σ' = objects c.1 ∧ registries σ' = registries c.1
    ∧ view_of (σ', c.2) = view_of c.
Proof.
  destruct c as [σ m]. cbn [fst snd]. intros Hr. eexists.
  split; [by apply redoState_empty|].
  split; [apply objects_log|]. split; [apply registries_log|].
  unfold view_of. cbn [fst snd]. by rewrite contents_log, !snapshots_log.
Qed.

Lemma contents_write_registry l l' r σ :
  contents l (write_registry l' r σ) = contents l σ.
Proof. done. Qed.

Lemma registry_at_write l l' o σ : registry_at l (write l' o σ) = registry_at l σ.
Proof. done. Qed.

Lemma registry_at_write_registry_eq l r σ :
  registry_at l (write_registry l r σ) = r.
Proof. unfold registry_at, write_registry. cbn. by rewrite lookup_insert_eq. Qed.

(** Two new objects in a row leave the old ones as they are. *)
Lemma insert_fresh_twice {A} (h : gmap loc A) (x y : A) :
  h ⊆ <[fresh (dom (<[fresh (dom h) := x]> h)) := y]> (<[fresh (dom h) := x]> h).
Proof.
  etrans; [apply (insert_subseteq h (fresh (dom h)) x)|].
  - apply not_elem_of_dom, is_fresh.
  - apply insert_subseteq, not_elem_of_dom, is_fresh.
Qed.

(** X10.  [new TransitionX()] with no argument: the state is an empty
    object, no transition is registered, logging is off, both stacks are
    empty, and the objects of the store keep their properties. *)
Theorem constructor_defaults (σ : store) :
  let c := constructor None None None σ in
  contents (state c.2) c.1 = ∅ ∧
  registry_at (transitions c.2) c.1 = ∅ ∧
  debug c.2 = false ∧ stateHistory c.2 = [] ∧ redoStack c.2 = [] ∧
  objects σ ⊆ objects c.1 ∧ registries σ ⊆ registries c.1.
Proof.
  intros c. subst c. unfold constructor, spread, spread_registry, alloc,
    alloc_registry. cbn.
  split; [|split].
  - by repeat (rewrite contents_write_registry || rewrite contents_write_eq).
  - by repeat (rewrite registry_at_write_registry_eq
               || rewrite registry_at_write).
  - split; [done|]. split; [done|]. split; [done|].
    split; apply insert_fresh_twice.
Qed.

Lemma saveState_extends c : objects c.1 ⊆ objects (saveState c).1.
Proof.
  destruct c as [σ m]. unfold saveState, spread. cbn. rewrite objects_log. cbn.
  apply insert_subseteq, not_elem_of_dom, is_fresh.
Qed.

Lemma rollbackState_extends c : objects c.1 ⊆ objects (rollbackState c).1.1.
Proof.
  destruct c as [σ m]. unfold rollbackState.
  destruct (decide (0 < length (stateHistory m))); cbn;
    rewrite objects_log; [apply insert_fresh_twice|done].
Qed.

Lemma redoState_extends c : objects c.1 ⊆ objects (redoState c).1.1.
Proof.
  destruct c as [σ m]. unfold redoState.
  destruct (decide (0 < length (redoStack m))); cbn;
    rewrite objects_log; [apply insert_fresh_twice|done].
Qed.

(** X11.  [saveState], [rollbackState] and [redoState] only create objects:
    every object of the store keeps its properties, whether the call succeeds
    or throws, and the objects that hold transitions are left alone. *)
Theorem history_methods_only_allocate (c : config) :
  objects c.1 ⊆ objects (saveState c).1 ∧
  objects c.1 ⊆ objects (rollbackState c).1.1 ∧
  objects c.1 ⊆ objects (redoState c).1.1 ∧
  registries (saveState c).1 = registries c.1 ∧
  registries (rollbackState c).1.1 = registries c.1 ∧
  registries (redoState c).1.1 = registries c.1.
Proof.
  split; [apply saveState_extends|]. split; [apply rollbackState_extends|].
  split; [apply redoState_extends|]. destruct c as [σ m].
  split; [|split].
  - unfold saveState. cbn. by rewrite registries_log.
  - unfold rollbackState.
    destruct (decide (0 < length (stateHistory m))); cbn;
      by rewrite registries_log.
  - unfold redoState.
    destruct (decide (0 < length (redoStack m))); cbn;
      by rewrite registries_log.
Qed.

Lemma snapshots_push a l σ :
  snapshots (push a l) σ = push (snapshots a σ) (contents l σ).
Proof. unfold push. by rewrite snapshots_app. Qed.

Lemma rollbackState_simulates E c :
  independent E c →
  match rollback_view (view_of c) with
  | Some v => ∃ c' E', rollbackState c = (c', None) ∧ view_of c' = v
                       ∧ independent E' c'
  | None => (rollbackState c).2 = Some (Error "No saved state to rollback to.")
            ∧ view_of (rollbackState c).1 = view_of c
  end.
Proof.
  destruct c as [σ m]. intros Hind. unfold rollback_view, view_of.
  cbn [fst snd undo redo current].
  destruct (stateHistory m) as [|l0 h0] eqn:Hh using rev_ind.
  - cbn. rewrite rollbackState_empty by done. cbn [fst snd].
    by rewrite contents_log, !snapshots_log, Hh.
  - clear IHh0. change (h0 ++ [l0]) with (push h0 l0) in *.
    rewrite snapshots_push, pop_push.
    destruct (rollbackState_view E σ m h0 l0 Hind Hh) as (c' & Hrb & Hv & Hi).
    exists c', ({[ state c'.2 ]} ∪ E). split; [done|]. split; [|done].
    exact Hv.
Qed.

Lemma redoState_simulates E c :
  independent E c →
  match redo_view (view_of c) with
  | Some v => ∃ c' E', redoState c = (c', None) ∧ view_of c' = v
                       ∧ independent E' c'
  | None => (redoState c).2 = Some (Error "No state to redo.")
            ∧ view_of (redoState c).1 = view_of c
  end.
Proof.
  destruct c as [σ m]. intros Hind. unfold redo_view, view_of.
  cbn [fst snd undo redo current].
  destruct (redoStack m) as [|l0 r0] eqn:Hr using rev_ind.
  - cbn. rewrite redoState_empty by done. cbn [fst snd].
    by rewrite contents_log, !snapshots_log, Hr.
  - clear IHr0. change (r0 ++ [l0]) with (push r0 l0) in *.
    rewrite snapshots_push, pop_push.
    destruct (redoState_view E σ m r0 l0 Hind Hr) as (c' & Hrd & Hv & Hi).
    exists c', ({[ state c'.2 ]} ∪ E). split; [done|]. split; [|done].
    exact Hv.
Qed.

(** X12.  On a well-formed instance the three history methods do to the
    contents what [save_view], [rollback_view] and [redo_view] do to a state
    and two stacks of states, and they throw exactly when the stack they pop
    is empty, leaving the contents as they are. *)
Theorem history_methods_refine_views (c : config) :
  well_formed c →
  view_of (saveState c) = save_view (view_of c) ∧
  match rollback_view (view_of c) with
  | Some v => (rollbackState c).2 = None ∧ view_of (rollbackState c).1 = v
  | None => (rollbackState c).2 = Some (Error "No saved state to rollback to.")
            ∧ view_of (rollbackState c).1 = view_of c
  end ∧
  match redo_view (view_of c) with
  | Some v => (redoState c).2 = None ∧ view_of (redoState c).1 = v
  | None => (redoState c).2 = Some (Error "No state to redo.")
            ∧ view_of (redoState c).1 = view_of c
  end.
Proof.
  intros Hwf. split; [|split].
  - destruct c as [σ m]. by destruct (saveState_view _ σ m Hwf) as (_ & -> & _).
  - pose proof (rollbackState_simulates _ c Hwf) as H.
    destruct (rollback_view (view_of c)); [|done].
    by destruct H as (c' & E' & -> & <- & _).
  - pose proof (redoState_simulates _ c Hwf) as H.
    destruct (redo_view (view_of c)); [|done].
    by destruct H as (c' & E' & -> & <- & _).
Qed.

Lemma pop_Some {A} (a rest : list A) (x : A) :
  pop a = (Some x, rest) → a = push rest x.
Proof.
  destruct a as [|y a] using rev_ind; [done|]. clear IHa.
  change (a ++ [y]) with (push a y). rewrite pop_push. by intros [= -> ->].
Qed.

Lemma attempt_app ops1 ops2 : ∀ c,
  attempt (ops1 ++ ops2) c = attempt ops1 c ≫= attempt ops2.
Proof.
  induction ops1 as [|op ops1 IH]; intros c; [done|]. cbn [app attempt].
  by destruct (perform op c) as [c' [e|]].
Qed.

(** On views, a redo takes back a rollback. *)
Lemma redo_rollback_view v v1 : rollback_view v = Some v1 → redo_view v1 = Some v.
Proof.
  unfold rollback_view, redo_view. destruct v as [s u r]. cbn.
  destruct (last u) as [p|] eqn:Hp; [|done]. intros [= <-]. cbn.
  rewrite last_snoc, removelast_last. do 2 f_equal.
  symmetry. apply (pop_Some u (removelast u) p). unfold pop. by rewrite Hp.
Qed.

Lemma rollback_view_Some v :
  0 < length (undo v) →
  ∃ v1, rollback_view v = Some v1 ∧ S (length (undo v1)) = length (undo v).
Proof.
  intros Hlen. destruct (stack_top _ Hlen) as (u & p & Hu).
  unfold rollback_view. rewrite Hu, pop_push. eexists. split; [done|].
  cbn. by rewrite length_push.
Qed.

Lemma undo_redo_nested k : ∀ E c,
  independent E c → (k ≤ length (undo (view_of c)))%nat →
  ∃ c' E', attempt (replicate k Rollback ++ replicate k Redo) c = Some c'
    ∧ view_of c' = view_of c ∧ independent E' c'.
Proof.
  induction k as [|k IH]; intros E c Hind Hk; [by exists c, E|].
  replace (replicate (S k) Rollback ++ replicate (S k) Redo)
    with (Rollback :: (replicate k Rollback ++ replicate k Redo) ++ [Redo])
    by (rewrite (replicate_S_end k Redo), app_assoc; done).
  destruct (rollback_view_Some (view_of c)) as (v1 & Hv1 & Hlen); [lia|].
  pose proof (rollbackState_simulates E c Hind) as Hrb. rewrite Hv1 in Hrb.
  destruct Hrb as (c1 & E1 & Hrb & Hview1 & Hind1).
  cbn [attempt perform]. rewrite Hrb.
  destruct (IH E1 c1 Hind1) as (c2 & E2 & Hk2 & Hview2 & Hind2).
  { rewrite Hview1. lia. }
  rewrite attempt_app, Hk2. cbn [mbind option_bind attempt perform].
  pose proof (redoState_simulates E2 c2 Hind2) as Hrd.
  rewrite Hview2, Hview1, (redo_rollback_view _ _ Hv1) in Hrd.
  destruct Hrd as (c3 & E3 & -> & Hview3 & Hind3). by exists c3, E3.
Qed.

(** X13.  When the undo stack holds at least [k] snapshots, [k] calls of
    [rollbackState] followed by [k] calls of [redoState] all succeed and
    give back the state and both stacks. *)
Theorem rollbacks_then_redos (k : nat) (c : config) :
  well_formed c → (k ≤ length (stateHistory c.2))%nat →
  ∃ c', attempt (replicate k Rollback ++ replicate k Redo) c = Some c'
    ∧ view_of c' = view_of c.
Proof.
  intros Hwf Hk.
  destruct (undo_redo_nested k _ c Hwf) as (c' & _ & ? & ? & _).
  - unfold view_of, snapshots. cbn. by rewrite length_fmap.
  - by exists c'.
Qed.

Lemma perform_independent E op c :
  independent E c → ∃ E', independent E' (perform op c).1.
Proof.
  intros Hind. destruct op as [| | | f | name args]; cbn [perform fst].
  - exists E. destruct c as [σ m].
    by destruct (saveState_view E σ m Hind) as (_ & _ & ?).
  - eexists. by apply rollbackState_independent.
  - eexists. by apply redoState_independent.
  - exists E. destruct c as [σ m].
    destruct (mutate_frame E f σ m Hind) as (σ' & -> & Hf).
    by apply (frame_independent E σ).
  - exists E. destruct c as [σ m].
    destruct (await_transition_frame E name args σ m Hind)
      as (σ' & r & -> & Hf & _).
    by apply (frame_independent E σ).
Qed.

Lemma run_independent ops : ∀ E c,
  independent E c → ∃ E', independent E' (run ops c).
Proof.
  induction ops as [|op ops IH]; intros E c Hind; cbn [run]; [by exists E|].
  destruct (perform_independent E op c Hind) as (E' & Hind'). by eapply IH.
Qed.

(** X14.  Whatever the constructor is given and whatever calls follow, the
    instance is well formed: its references are objects of the store, and
    its state object is on neither stack. *)
Theorem constructed_instances_are_well_formed
    (initialState transitions : option loc) (debug : option bool)
    (σ : store) (ops : list operation) :
  well_formed (run ops (constructor initialState transitions debug σ)).
Proof.
  pose proof (constructor_independent σ initialState transitions debug) as Hc.
  cbv zeta in Hc. destruct (run_independent ops _ _ Hc) as (E' & Hind).
  by eapply independent_well_formed.
Qed.

(** X15.  The copies are shallow.  When a property of the state holds a
    nested object and that object is changed after [saveState()],
    [rollbackState()] gives back the property, which still refers to the
    nested object, and the nested object keeps the change. *)
Theorem rollbackState_is_shallow (c : config) (key : string) (n : loc)
    (o : obj) :
  well_formed c →
  contents (state c.2) c.1 !! key = Some (VRef n) →
  n ∈ dom (objects c.1) → n ∉ stateHistory c.2 ++ redoStack c.2 →
  let c1 := saveState c in
  let c2 := (write n o c1.1, c1.2) in
  ∃ c3, rollbackState c2 = (c3, None)
    ∧ contents (state c3.2) c3.1 !! key = Some (VRef n)
    ∧ contents n c3.1 = o.
Proof.
  destruct c as [σ m]. cbn [fst snd]. intros Hwf Hkey Hn Hout.
  set (E := ({[ state m ]} ∪ {[ n ]} : gset loc)).
  assert (Hind : independent E (σ, m)).
  { pose proof Hwf as (_ & Hsub & _). cbn [fst snd] in Hsub.
    apply independent_intro; [set_solver|set_solver|]. intros l Hl.
    destruct (independent_stacks _ σ m l Hwf Hl). set_solver. }
  destruct (saveState_spec σ m) as (σ1 & snap & Hsave & Hsnap & Hobj & _).
  destruct (saveState_view E σ m Hind) as (_ & _ & Hind1).
  rewrite Hsave in Hind1 |- *. cbn [fst snd] in *.
  set (m1 := Build _ _ _ _ _) in *.
  assert (Hn1 : n ∈ dom (objects σ1)) by (rewrite Hobj, dom_insert_L; set_solver).
  assert (Hf : frame E σ1 (write n o σ1)).
  { apply frame_write; [set_solver|done]. }
  destruct (frame_independent E σ1 _ m1 Hind1 Hf) as (Hind2 & _ & _).
  destruct (rollbackState_view E (write n o σ1) m1 (stateHistory m) snap Hind2)
    as (c3 & Hrb & Hv & _); [done|].
  exists c3. split; [done|]. split.
  - change (contents (state c3.2) c3.1) with (current (view_of c3)).
    rewrite Hv. cbn [current].
    assert (Hne : n ≠ snap) by (intros ->; done).
    rewrite contents_write_ne by done.
    unfold contents at 1. by rewrite Hobj, lookup_insert_eq.
  - pose proof (rollbackState_extends (write n o σ1, m1)) as Hext.
    rewrite Hrb in Hext. cbn [fst snd] in Hext.
    unfold contents.
    rewrite (lookup_weaken (objects (write n o σ1)) _ n o); [done| |done].
    unfold write. cbn. by rewrite lookup_insert_eq.
Qed.

(** Decidable facts about the instances above. *)
Ltac decide_by_computation := apply (bool_decide_unpack _); vm_compute; exact I.

Lemma redoState_nothing_to_redo_witness :
  redoStack Checks.tx.2 = [] ∧
  ∃ σ', redoState Checks.tx = ((σ', Checks.tx.2), Some (Error "No state to redo."))
    ∧ objects σ' = objects Checks.tx.1 ∧ registries σ' = registries Checks.tx.1
    ∧ view_of (σ', Checks.tx.2) = view_of Checks.tx.
Proof.
  assert (Hr : redoStack Checks.tx.2 = []) by reflexivity.
  split; [exact Hr|]. exact (redoState_nothing_to_redo Checks.tx Hr).
Defined.

Lemma history_methods_refine_views_witness :
  well_formed Checks.saved_twice ∧
  view_of (saveState Checks.saved_twice)
    = save_view (view_of Checks.saved_twice).
Proof.
  assert (Hwf : well_formed Checks.saved_twice) by decide_by_computation.
  split; [exact Hwf|].
  exact (proj1 (history_methods_refine_views Checks.saved_twice Hwf)).
Defined.

Lemma rollbacks_then_redos_witness :
  well_formed Checks.saved_twice ∧
  (2 ≤ length (stateHistory Checks.saved_twice.2))%nat ∧
  ∃ c', attempt (replicate 2 Rollback ++ replicate 2 Redo) Checks.saved_twice
          = Some c'
    ∧ view_of c' = view_of Checks.saved_twice.
Proof.
  assert (Hwf : well_formed Checks.saved_twice) by decide_by_computation.
  assert (Hk : (2 ≤ length (stateHistory Checks.saved_twice.2))%nat)
    by (vm_compute; lia).
  split; [exact Hwf|]. split; [exact Hk|].
  exact (rollbacks_then_redos 2 Checks.saved_twice Hwf Hk).
Defined.

Lemma rollbackState_is_shallow_witness :
  well_formed Checks.tx ∧
  contents (state Checks.tx.2) Checks.tx.1 !! "bag" = Some (VRef 2%positive) ∧
  ∃ c3, rollbackState (write 2%positive ∅ (saveState Checks.tx).1,
                       (saveState Checks.tx).2) = (c3, None)
    ∧ contents (state c3.2) c3.1 !! "bag" = Some (VRef 2%positive)
    ∧ contents 2%positive c3.1 = ∅.
Proof.
  assert (Hwf : well_formed Checks.tx) by decide_by_computation.
  assert (Hkey : contents (state Checks.tx.2) Checks.tx.1 !! "bag"
                 = Some (VRef 2%positive)) by (vm_compute; reflexivity).
  assert (Hn : 2%positive ∈ dom (objects Checks.tx.1))
    by decide_by_computation.
  assert (Hout : 2%positive ∉ stateHistory Checks.tx.2 ++ redoStack Checks.tx.2)
    by decide_by_computation.
  split; [exact Hwf|]. split; [exact Hkey|].
  exact (rollbackState_is_shallow Checks.tx "bag" 2%positive ∅ Hwf Hkey Hn Hout).
Defined.

Lemma createTransition_throws_witness :
  registry_at (transitions Checks.tx.2) Checks.tx.1 !! "choke"
    = Some (PFunction Checks.choke) ∧
  ∃ σ' msg, createTransition "choke" [] Checks.tx
              = ((σ', Checks.tx.2), Rejected (TypeError msg))
    ∧ contents (state Checks.tx.2) σ'
      = <["hunger" := VStr "sick"]> Checks.initialState.
Proof.
  assert (Hf : registry_at (transitions Checks.tx.2) Checks.tx.1 !! "choke"
               = Some (PFunction Checks.choke)) by (vm_compute; reflexivity).
  assert (Hthrows : Checks.choke [] (contents (state Checks.tx.2) Checks.tx.1)
                    = (<["hunger" := VStr "sick"]> Checks.initialState,
                       Throws (Thrown VNull))) by (vm_compute; reflexivity).
  split; [exact Hf|].
  destruct (createTransition_throws Checks.tx.1 Checks.tx.2 "choke" []
              Checks.choke _ _ Hf Hthrows) as (σ' & Hc & _ & Ho & _ & Hnull).
  destruct (Hnull (or_introl eq_refl)) as [msg Hmsg].
  exists σ', msg. split; [|exact Ho].
  exact (eq_trans Hc (f_equal (λ e, ((σ', Checks.tx.2), Rejected e)) Hmsg)).
Defined.

Lemma createTransition_promise_witness :
  registry_at (transitions Checks.tx.2) Checks.tx.1 !! "vanish"
    = Some (PFunction Checks.vanish) ∧
  ∃ σ1 σ2 msg,
    createTransition "vanish" [] Checks.tx
      = ((σ1, Checks.tx.2),
         Suspended "vanish"
           (Deferred (state Checks.tx.2) (λ o, o) (Some (Thrown VUndefined))))
    ∧ settle (Suspended "vanish"
                (Deferred (state Checks.tx.2) (λ o, o)
                          (Some (Thrown VUndefined))))
             (σ1, Checks.tx.2)
      = ((σ2, Checks.tx.2), Some (TypeError msg))
    ∧ contents (state Checks.tx.2) σ2 = Checks.initialState.
Proof.
  assert (Hf : registry_at (transitions Checks.tx.2) Checks.tx.1 !! "vanish"
               = Some (PFunction Checks.vanish)) by (vm_compute; reflexivity).
  assert (Hp : Checks.vanish [] (contents (state Checks.tx.2) Checks.tx.1)
               = (Checks.initialState,
                  Promises (λ o, o) (Some (Thrown VUndefined))))
    by (vm_compute; reflexivity).
  split; [exact Hf|].
  destruct (createTransition_promise Checks.tx.1 Checks.tx.2 "vanish" []
              Checks.vanish _ _ _ Hf Hp)
    as (σ1 & σ2 & Hc & _ & Hs & Hl & Hcaught).
  destruct (proj2 (Hcaught _ eq_refl) (or_intror eq_refl)) as [msg Hmsg].
  exists σ1, σ2, msg. split; [exact Hc|]. split; [|exact Hl].
  exact (eq_trans Hs (f_equal (λ e, ((σ2, Checks.tx.2), Some e)) Hmsg)).
Defined.

Lemma late_mutation_misses_state_witness :
  well_formed (saveState Checks.tx) ∧
  0 < length (stateHistory (saveState Checks.tx).2) ∧
  ∃ c1 c2 c3 p,
    createTransition "rest" [] (saveState Checks.tx) = (c1, p) ∧
    rollbackState c1 = (c2, None) ∧
    settle p c2 = (c3, None) ∧
    view_of c3 = view_of c2 ∧
    state c2.2 ≠ state (saveState Checks.tx).2 ∧
    contents (state (saveState Checks.tx).2) c3.1
      = <["energy" := VStr "high"]> Checks.initialState.
Proof.
  assert (Hwf : well_formed (saveState Checks.tx)) by decide_by_computation.
  assert (Hlen : 0 < length (stateHistory (saveState Checks.tx).2))
    by (vm_compute; lia).
  split; [exact Hwf|]. split; [exact Hlen|].
  refine (late_mutation_misses_state (saveState Checks.tx).1
            (saveState Checks.tx).2 "rest" [] Tests.rest _ _ None Hwf Hlen _ _);
    vm_compute; reflexivity.
Defined.

Lemma createTransition_not_a_function_witness :
  registry_at (transitions Checks.tx.2) Checks.tx.1 !! "off"
    = Some (PValue (VNum 0)) ∧
  ∃ σ' e, createTransition "off" [] Checks.tx
            = ((σ', Checks.tx.2), Rejected e)
    ∧ objects σ' = objects Checks.tx.1
    ∧ e = Error ("Transition " +:+ dquote +:+ "off" +:+ dquote
                 +:+ " is not defined.").
Proof.
  assert (Hv : registry_at (transitions Checks.tx.2) Checks.tx.1 !! "off"
               = Some (PValue (VNum 0))) by (vm_compute; reflexivity).
  split; [exact Hv|].
  exact (createTransition_not_a_function Checks.tx.1 Checks.tx.2 "off" []
           (VNum 0) Hv).
Defined.

Lemma transition_keeps_history_witness :
  well_formed Checks.saved_twice ∧
  (await_transition "spoil" [] Checks.saved_twice).1.2 = Checks.saved_twice.2 ∧
  undo (view_of (await_transition "spoil" [] Checks.saved_twice).1)
    = undo (view_of Checks.saved_twice).
Proof.
  assert (Hwf : well_formed Checks.saved_twice) by decide_by_computation.
  split; [exact Hwf|].
  destruct (transition_keeps_history "spoil" [] Checks.saved_twice Hwf)
    as (Hm & Hu & _).
  split; [exact Hm|exact Hu].
Defined.

Lemma debug_off_is_silent_witness :
  debug Tests.tx.2 = false ∧
  console (run Scenario.two_saves Tests.tx).1 = console Tests.tx.1.
Proof.
  assert (Hd : debug Tests.tx.2 = false) by reflexivity.
  split; [exact Hd|]. exact (debug_off_is_silent Scenario.two_saves Tests.tx Hd).
Defined.

Lemma perform_ignores_logging_witness :
  silence Checks.tests_debug = silence Tests.tx ∧
  silence (perform (Transition "eat" []) Checks.tests_debug).1
    = silence (perform (Transition "eat" []) Tests.tx).1 ∧
  (perform (Transition "eat" []) Checks.tests_debug).2
    = (perform (Transition "eat" []) Tests.tx).2.
Proof.
  assert (Hs : silence Checks.tests_debug = silence Tests.tx)
    by (vm_compute; reflexivity).
  split; [exact Hs|].
  exact (perform_ignores_logging (Transition "eat" []) _ _ Hs).
Defined.
